(** * twitchplays-retroarch: the command pipeline of [TwitchPlaysRetroArchBot]

    A shallow embedding of [twitchplays_retroarch/__init__.py]: the bot
    object, the chat-message handlers, the control toggle, the worker task
    [input_queue_pop], the bot construction done by [main], and the thread
    pool that runs the worker tasks.

    Conventions.
    - Python [str] is [string], the text in UTF-8; [dict] is
      [gmap string string].
    - A TOML float is a [Q]: the code never computes with the two timing
      values, it only hands them to [time.sleep]. Which lengths [time.sleep]
      refuses besides the negative ones is up to the interpreter and the
      platform, and a parameter here. TOML's [inf] and [nan], which
      [time.sleep] refuses too, are not among the values.
    - Every call that leaves the bot object (logging, the key emulator,
      [time.sleep], twitchio's [handle_commands]) and every operation on the
      shared queue and pool is appended to a history of events.
    - Statements run in a state-and-exception monad [M]; [queue.get] on an
      empty queue is the outcome [Block].
    - The model covers the bot from its construction up to and including
      [close]. *)

From Stdlib Require Import QArith.
From stdpp Require Import gmap strings list pretty.

(** ** Events, exceptions and the bot object *)

Inductive Level := DEBUG | INFO | WARNING | ERROR | CRITICAL.

(** The two emulation back ends the module imports. *)
Inductive Emulator := pydirectinput | pyautogui.

Inductive Event :=
  | Log (lvl : Level) (text : string)
  | QueuePut (key : string)
  | QueueGet (key : string)
  | PoolSubmit
  | KeyDown (emu : Emulator) (key : string)
  | KeyUp (emu : Emulator) (key : string)
  | Sleep (secs : Q)
  | HandleCommands (content : string)
  | SuperClose.

Inductive Exn :=
  | ValueError (text : string)
  | OverflowError (text : string)
  | OSError (text : string)
  | EmulationError (text : string).

(** A call into the key emulator. *)
Inductive EmuCall := KeyDownCall (key : string) | KeyUpCall (key : string).

(** Program points of [input_queue_pop], one per statement (lines 128-141). *)
Inductive pc :=
  | PcLogHandling
  | PcGet
  | PcLogExecuting (key_to_press : string)
  | PcKeyDown (key_to_press : string)
  | PcSleepDuration (key_to_press : string)
  | PcKeyUp (key_to_press : string)
  | PcSleepDelay.

(** A pool thread either waits for a work item or is inside one. *)
Inductive Thread := Idle | Running (p : pc).

(** [concurrent.futures.ThreadPoolExecutor]: [max_workers] thread slots and
    the pending work items. Every work item of this program is the bound
    method [input_queue_pop], so the work queue is their number. *)
Record ThreadPoolExecutor := {
  threads : list Thread;
  work_queue : nat;
}.

Record Bot := {
  keypress_delay : Q;
  keypress_duration : Q;
  commandset : gmap string string;
  case_insensitive : bool;
  twitchplays_commands_enabled : bool;
  input_queue : list string;
  input_thread_pool : ThreadPoolExecutor;
}.

Record Message := {
  content : string;
  echo : bool;
  author_name : string;
}.

(** The values [main] reads from the loaded TOML document. *)
Record Config := {
  twitch_token : string;
  twitch_channel_to_join : string;
  bot_prefix : string;
  bot_case_insensitive : bool;
  bot_input_threads : Z;
  bot_keypress_duration : Q;
  bot_keypress_delay : Q;
  keys : gmap string string;
  hotkeys_toggle_allow_twitchplays_commands : string;
}.

Record State := {
  bot : Bot;
  history : list Event;
}.

Definition set_enabled (v : bool) (b : Bot) : Bot :=
  {| keypress_delay := keypress_delay b;
     keypress_duration := keypress_duration b;
     commandset := commandset b;
     case_insensitive := case_insensitive b;
     twitchplays_commands_enabled := v;
     input_queue := input_queue b;
     input_thread_pool := input_thread_pool b |}.

Definition set_input_queue (q : list string) (b : Bot) : Bot :=
  {| keypress_delay := keypress_delay b;
     keypress_duration := keypress_duration b;
     commandset := commandset b;
     case_insensitive := case_insensitive b;
     twitchplays_commands_enabled := twitchplays_commands_enabled b;
     input_queue := q;
     input_thread_pool := input_thread_pool b |}.

Definition set_pool (p : ThreadPoolExecutor) (b : Bot) : Bot :=
  {| keypress_delay := keypress_delay b;
     keypress_duration := keypress_duration b;
     commandset := commandset b;
     case_insensitive := case_insensitive b;
     twitchplays_commands_enabled := twitchplays_commands_enabled b;
     input_queue := input_queue b;
     input_thread_pool := p |}.

Definition set_commandset (c : gmap string string) (b : Bot) : Bot :=
  {| keypress_delay := keypress_delay b;
     keypress_duration := keypress_duration b;
     commandset := c;
     case_insensitive := case_insensitive b;
     twitchplays_commands_enabled := twitchplays_commands_enabled b;
     input_queue := input_queue b;
     input_thread_pool := input_thread_pool b |}.

(** ** The monad of statements *)

Inductive Outcome (A : Type) :=
  | Ret (a : A) (s : State)
  | Raise (e : Exn) (s : State)
  | Block.
Arguments Ret {A} a s.
Arguments Raise {A} e s.
Arguments Block {A}.

Definition M (A : Type) : Type := State → Outcome A.

Definition ret {A} (a : A) : M A := λ s, Ret a s.

Definition bind {A B} (m : M A) (f : A → M B) : M B := λ s,
  match m s with
  | Ret a s' => f a s'
  | Raise e s' => Raise e s'
  | Block => Block
  end.

Declare Scope stmt_scope.
Delimit Scope stmt_scope with stmt.
Notation "x ← y ; z" := (bind y (λ x : _, z))
  (at level 20, y at level 100, z at level 200, only parsing) : stmt_scope.
Notation "x ;; z" := (bind x (λ _, z))
  (at level 100, z at level 200, only parsing, right associativity) : stmt_scope.
Open Scope stmt_scope.

Definition raise {A} (e : Exn) : M A := λ s, Raise e s.

Definition read_bot : M Bot := λ s, Ret (bot s) s.

Definition write_bot (b : Bot) : M unit :=
  λ s, Ret tt {| bot := b; history := history s |}.

Definition emit (ev : Event) : M unit :=
  λ s, Ret tt {| bot := bot s; history := history s ++ [ev] |}.

(** [log.info]. *)
Definition log_info (text : string) : M unit := emit (Log INFO text).

(** [queue.Queue.put] on an unbounded queue: append at the tail. *)
Definition queue_put (key : string) : M unit :=
  b ← read_bot;
  write_bot (set_input_queue (input_queue b ++ [key]) b);;
  emit (QueuePut key).

(** [queue.Queue.get]: take the head; blocks while the queue is empty. *)
Definition queue_get : M string :=
  b ← read_bot;
  match input_queue b with
  | [] => λ _, Block
  | key :: q =>
      write_bot (set_input_queue q b);;
      emit (QueueGet key);;
      ret key
  end.

(** [ThreadPoolExecutor.submit(self.input_queue_pop)]: one more pending work
    item; the returned future is dropped by the caller. *)
Definition pool_submit : M unit :=
  b ← read_bot;
  let p := input_thread_pool b in
  write_bot (set_pool {| threads := threads p; work_queue := S (work_queue p) |} b);;
  emit PoolSubmit.

(** [ThreadPoolExecutor(max_workers=...)]: rejects a size below one. *)
Definition ThreadPoolExecutor_new (max_workers : Z) : Exn + ThreadPoolExecutor :=
  if (max_workers <=? 0)%Z then inl (ValueError "max_workers must be greater than 0")
  else inr {| threads := replicate (Z.to_nat max_workers) Idle; work_queue := 0 |}.

(** [TwitchPlaysRetroArchBot.__init__] (lines 77-106). *)
Definition TwitchPlaysRetroArchBot_init
    (keypress_delay keypress_duration : Q) (input_threads : Z)
    (commandset : gmap string string) (case_insensitive : bool) : Exn + Bot :=
  match ThreadPoolExecutor_new input_threads with
  | inl e => inl e
  | inr pool =>
      inr {| keypress_delay := keypress_delay;
             keypress_duration := keypress_duration;
             commandset := commandset;
             case_insensitive := case_insensitive;
             twitchplays_commands_enabled := true;
             input_queue := [];
             input_thread_pool := pool |}
  end.

(** The bot [main] builds from the loaded configuration (lines 275-284). *)
Definition main (config : Config) : Exn + Bot :=
  TwitchPlaysRetroArchBot_init
    (* keypress_delay := *) (bot_keypress_duration config)
    (* keypress_duration := *) (bot_keypress_duration config)
    (* input_threads := *) (bot_input_threads config)
    (* commandset := *) (keys config)
    (* case_insensitive := *) (bot_case_insensitive config).

(** [twitchplays_commands_toggle] (lines 112-120). *)
Definition twitchplays_commands_toggle : M unit :=
  b ← read_bot;
  write_bot (set_enabled (negb (twitchplays_commands_enabled b)) b);;
  b ← read_bot;
  let status := if twitchplays_commands_enabled b then "enabled" else "disabled" in
  log_info ("Twitch Plays commands " +:+ status +:+ ".").

Definition is_idle (t : Thread) : bool :=
  match t with Idle => true | Running _ => false end.

(** No work item pending and no thread inside one. *)
Definition pool_drained (p : ThreadPoolExecutor) : bool :=
  Nat.eqb (work_queue p) 0 && forallb is_idle (threads p).

(** [ThreadPoolExecutor.shutdown()], with its default [wait=True]: the
    pending work items are still run, and the caller waits until the
    threads are through with them. *)
Definition pool_shutdown : M unit :=
  b ← read_bot;
  if pool_drained (input_thread_pool b) then ret tt else λ _, Block.

(** [close] (lines 178-182). *)
Definition close : M unit :=
  log_info "Shutting down bot.";;
  pool_shutdown;;
  emit SuperClose.

(** A Python value as far as the handlers return one: [None], which a
    coroutine without a [return] value yields, or a [bool]. *)
Inductive Value := VNone | VBool (v : bool).

(** Python's truth value. *)
Definition truth (v : Value) : bool :=
  match v with VNone => false | VBool v => v end.

Section Handlers.

(** Python's [str.casefold]. *)
Variable casefold : string → string.

(** [sys.platform]. *)
Variable sys_platform : string.

(** Whether a call into the emulator raises, given what has happened so
    far, and with which exception. *)
Variable emulation_error : Emulator → EmuCall → list Event → option Exn.

(** Whether [time.sleep] refuses a length, given what has happened so far,
    and with which exception: an [OverflowError] for a length beyond the
    interpreter's 64-bit clock, an [OSError] from the system call for a
    length beyond what the platform's clock takes. *)
Variable sleep_error : Q → list Event → option Exn.

(** [time.sleep]: a refused length raises; a negative length is refused in
    any case, with a [ValueError] if with nothing else. *)
Definition time_sleep (secs : Q) : M unit :=
  λ s, match sleep_error secs (history s) with
       | Some e => Raise e s
       | None =>
           if Qle_bool 0 secs then emit (Sleep secs) s
           else Raise (ValueError "sleep length must be non-negative") s
       end.

(** Lines 133-136. *)
Definition input_emulator : Emulator :=
  if String.eqb sys_platform "win32" then pydirectinput else pyautogui.

Definition keyDown (emu : Emulator) (key : string) : M unit :=
  λ s, match emulation_error emu (KeyDownCall key) (history s) with
       | Some e => Raise e s
       | None => emit (KeyDown emu key) s
       end.

Definition keyUp (emu : Emulator) (key : string) : M unit :=
  λ s, match emulation_error emu (KeyUpCall key) (history s) with
       | Some e => Raise e s
       | None => emit (KeyUp emu key) s
       end.

(** [input_queue_pop] (lines 122-141); [thread_name] is
    [threading.currentThread().name]. *)
Definition input_queue_pop (thread_name : string) : M unit :=
  log_info (thread_name +:+ ": Handling one input from queue.");;
  key_to_press ← queue_get;
  log_info (thread_name +:+ ": Executing input: " +:+ key_to_press +:+ ".");;
  keyDown input_emulator key_to_press;;
  b ← read_bot;
  time_sleep (keypress_duration b);;
  keyUp input_emulator key_to_press;;
  b ← read_bot;
  time_sleep (keypress_delay b).

(** The text looked up in the table (lines 151-153). *)
Definition command (b : Bot) (message : Message) : string :=
  let command := content message in
  if case_insensitive b then casefold command else command.

(** [process_twitchplays_commands] (lines 143-162). *)
Definition process_twitchplays_commands (message : Message) : M bool :=
  b ← read_bot;
  let commandset := commandset b in
  let command := command b message in
  match commandset !! command with
  | Some key_to_press =>
      log_info ("Queueing input: " +:+ key_to_press +:+ ".");;
      queue_put key_to_press;;
      pool_submit;;
      ret true
  | None => ret false
  end.

(** [event_message] (lines 164-176). *)
Definition event_message (message : Message) : M Value :=
  if echo message then
    log_info ("Ignoring message from bot: " +:+ content message);;
    ret VNone
  else
    log_info ("Got user message: " +:+ author_name message +:+ ": " +:+ content message);;
    b ← read_bot;
    (if twitchplays_commands_enabled b
     then process_twitchplays_commands message;; ret tt
     else ret tt);;
    emit (HandleCommands (content message));;
    ret VNone.

(** ** The thread pool at work

    The statements of [input_queue_pop] one at a time: the statement at
    program point [p], and the point that follows ([None]: the function
    returns). *)
Definition worker_stmt (thread_name : string) (p : pc) : M (option pc) :=
  match p with
  | PcLogHandling =>
      log_info (thread_name +:+ ": Handling one input from queue.");;
      ret (Some PcGet)
  | PcGet =>
      key_to_press ← queue_get;
      ret (Some (PcLogExecuting key_to_press))
  | PcLogExecuting key_to_press =>
      log_info (thread_name +:+ ": Executing input: " +:+ key_to_press +:+ ".");;
      ret (Some (PcKeyDown key_to_press))
  | PcKeyDown key_to_press =>
      keyDown input_emulator key_to_press;;
      ret (Some (PcSleepDuration key_to_press))
  | PcSleepDuration key_to_press =>
      b ← read_bot;
      time_sleep (keypress_duration b);;
      ret (Some (PcKeyUp key_to_press))
  | PcKeyUp key_to_press =>
      keyUp input_emulator key_to_press;;
      ret (Some PcSleepDelay)
  | PcSleepDelay =>
      b ← read_bot;
      time_sleep (keypress_delay b);;
      ret None
  end.

(** Statements run back to back by one thread, at most [n] of them. *)
Fixpoint run_stmts (n : nat) (thread_name : string) (p : pc) : M unit :=
  match n with
  | O => ret tt
  | S n =>
      next ← worker_stmt thread_name p;
      match next with
      | Some p' => run_stmts n thread_name p'
      | None => ret tt
      end
  end.

(** What becomes of the future of a work item. *)
Inductive Future := FutureResult | FutureException (e : Exn).

(** [_WorkItem.run] of [concurrent.futures.thread]: the call of the
    submitted function inside [try ... except BaseException], the outcome
    stored in the future. Nothing is logged, nothing is re-raised. *)
Definition work_item_run (thread_name : string) (s : State) : option (Future * State) :=
  match input_queue_pop thread_name s with
  | Ret _ s' => Some (FutureResult, s')
  | Raise e s' => Some (FutureException e, s')
  | Block => None
  end.

(** The name the pool gives its [i]-th thread
    ([thread_name_prefix='InputHandler']). *)
Definition thread_name_of (i : nat) : string := "InputHandler_" +:+ pretty i.

(** The event loop between two matched commands, or between lines 158
    and 159 of one. *)
Inductive loop_pc := LoopNext | LoopSubmit.

(** The running program: the shared state, the keys of the matched
    commands the event loop has still to queue, and where the event loop
    is. *)
Record System := {
  state : State;
  inbox : list string;
  loop : loop_pc;
}.

Inductive Action :=
  | APut               (* event loop: lines 157-158 for the next matched command *)
  | ASubmit            (* event loop: line 159 *)
  | ATake (i : nat)    (* thread [i] takes a pending work item *)
  | AExec (i : nat).   (* thread [i] runs its next statement *)

Definition set_thread (i : nat) (t : Thread) (s : State) : State :=
  let p := input_thread_pool (bot s) in
  {| bot := set_pool {| threads := <[i:=t]> (threads p); work_queue := work_queue p |} (bot s);
     history := history s |}.

(** One atomic step; [None] when the action cannot be taken. An exception
    out of a statement ends the work item: the thread goes back to waiting
    for the next one. *)
Definition fire (a : Action) (σ : System) : option System :=
  let s := state σ in
  let pool := input_thread_pool (bot s) in
  match a with
  | APut =>
      match loop σ, inbox σ with
      | LoopNext, key_to_press :: rest =>
          match (log_info ("Queueing input: " +:+ key_to_press +:+ ".");;
                 queue_put key_to_press) s with
          | Ret _ s' => Some {| state := s'; inbox := rest; loop := LoopSubmit |}
          | _ => None
          end
      | _, _ => None
      end
  | ASubmit =>
      match loop σ with
      | LoopSubmit =>
          match pool_submit s with
          | Ret _ s' => Some {| state := s'; inbox := inbox σ; loop := LoopNext |}
          | _ => None
          end
      | LoopNext => None
      end
  | ATake i =>
      match threads pool !! i, work_queue pool with
      | Some Idle, S n =>
          Some {| state :=
                    {| bot := set_pool {| threads := <[i:=Running PcLogHandling]> (threads pool);
                                          work_queue := n |} (bot s);
                       history := history s |};
                  inbox := inbox σ; loop := loop σ |}
      | _, _ => None
      end
  | AExec i =>
      match threads pool !! i with
      | Some (Running p) =>
          match worker_stmt (thread_name_of i) p s with
          | Ret (Some p') s' =>
              Some {| state := set_thread i (Running p') s'; inbox := inbox σ; loop := loop σ |}
          | Ret None s' =>
              Some {| state := set_thread i Idle s'; inbox := inbox σ; loop := loop σ |}
          | Raise e s' =>
              Some {| state := set_thread i Idle s'; inbox := inbox σ; loop := loop σ |}
          | Block => None
          end
      | _ => None
      end
  end.

(** A schedule run from a system. *)
Fixpoint run (sched : list Action) (σ : System) : option System :=
  match sched with
  | [] => Some σ
  | a :: sched =>
      match fire a σ with
      | Some σ' => run sched σ'
      | None => None
      end
  end.

(** The program once the bot is built, with the matched commands [ks] to
    come. *)
Definition start (b : Bot) (ks : list string) : System :=
  {| state := {| bot := b; history := [] |}; inbox := ks; loop := LoopNext |}.

End Handlers.

(** ** Concrete instances

    [str.casefold] on ASCII text: the capitals A-Z go to a-z, every other
    character stays. *)
Definition is_ascii_capital (c : Ascii.ascii) : bool :=
  let n := Ascii.N_of_ascii c in (65 <=? n)%N && (n <=? 90)%N.

Definition lower_char (c : Ascii.ascii) : Ascii.ascii :=
  if is_ascii_capital c then Ascii.ascii_of_N (Ascii.N_of_ascii c + 32) else c.

Fixpoint ascii_casefold (text : string) : string :=
  match text with
  | EmptyString => EmptyString
  | String c text => String (lower_char c) (ascii_casefold text)
  end.


Fixpoint is_ascii (text : string) : bool :=
  match text with
  | EmptyString => true
  | String c text => (Ascii.N_of_ascii c <? 128)%N && is_ascii text
  end.




(** A length [time.sleep] takes: not negative and not refused. *)
Definition sleep_accepted (sleep_error : Q → list Event → option Exn) (secs : Q)
    : Prop :=
  Qle_bool 0 secs = true ∧ ∀ h, sleep_error secs h = None.

(** The refusal that comes from the interpreter alone: [time.sleep] turns
    the length into nanoseconds of a signed 64-bit clock and raises
    [OverflowError] when they do not fit. *)
Definition clock_overflow : Q → list Event → option Exn :=
  λ secs _,
    let ns := (secs * (1000000000 # 1))%Q in
    if Qle_bool (-9223372036854775808 # 1) ns
       && negb (Qle_bool (9223372036854775808 # 1) ns)
    then None
    else Some (OverflowError "timestamp too large to convert to C _PyTime_t").

(** An emulator that never fails. *)
Definition no_error : Emulator → EmuCall → list Event → option Exn :=
  λ _ _ _, None.

(** An emulator whose [keyDown] always fails. *)
Definition keyDown_fails : Emulator → EmuCall → list Event → option Exn :=
  λ _ call _,
    match call with
    | KeyDownCall _ => Some (EmulationError "keyDown failed")
    | KeyUpCall _ => None
    end.

(** The class attribute [test_keys_fbneo] (lines 66-75). *)
Definition test_keys_fbneo : gmap string string :=
  list_to_map
    [("up", "up"); ("down", "down"); ("left", "left"); ("right", "right");
     ("button1", "z"); ("button2", "x"); ("start", "enter");
     ("COIN", "shiftright")].

(** A configuration whose two timing values differ. *)
Definition example_config : Config :=
  {| twitch_token := "oauth:token";
     twitch_channel_to_join := "channel";
     bot_prefix := "!";
     bot_case_insensitive := true;
     bot_input_threads := 2;
     bot_keypress_duration := 1 # 10;
     bot_keypress_delay := 1 # 2;
     keys := test_keys_fbneo;
     hotkeys_toggle_allow_twitchplays_commands := "ctrl+shift+t" |}.

(** The bot [TwitchPlaysRetroArchBot(keypress_delay=0.5, keypress_duration=0.1,
    input_threads=2, commandset=test_keys_fbneo)]. *)
Definition example_bot : Bot :=
  {| keypress_delay := 1 # 2;
     keypress_duration := 1 # 10;
     commandset := test_keys_fbneo;
     case_insensitive := true;
     twitchplays_commands_enabled := true;
     input_queue := [];
     input_thread_pool := {| threads := [Idle; Idle]; work_queue := 0 |} |}.

Definition example_state : State := {| bot := example_bot; history := [] |}.

(** The same bot while its first thread holds the key "up" down. *)
Definition busy_bot : Bot :=
  set_pool {| threads := [Running (PcKeyUp "up"); Idle]; work_queue := 0 |}
    example_bot.

Definition user_message (text : string) : Message :=
  {| content := text; echo := false; author_name := "viewer" |}.

(** The chat layer handing over messages one after the other. *)
Fixpoint deliver (casefold : string → string) (messages : list Message) : M unit :=
  match messages with
  | [] => ret tt
  | message :: messages =>
      event_message casefold message;;
      deliver casefold messages
  end.

(** The bot of the two-command scenario: [commandset = {"left": "left",
    "start": "enter"}], [case_insensitive = True], [input_threads = 1]. *)
Definition scenario_bot : Bot :=
  {| keypress_delay := 1 # 10;
     keypress_duration := 1 # 10;
     commandset := {["left" := "left"; "start" := "enter"]};
     case_insensitive := true;
     twitchplays_commands_enabled := true;
     input_queue := [];
     input_thread_pool := {| threads := [Idle]; work_queue := 0 |} |}.

(** ** Projections of a history *)

Definition puts (h : list Event) : list string :=
  omap (λ ev, match ev with QueuePut key => Some key | _ => None end) h.

Definition gets (h : list Event) : list string :=
  omap (λ ev, match ev with QueueGet key => Some key | _ => None end) h.

Definition downs (h : list Event) : list string :=
  omap (λ ev, match ev with KeyDown _ key => Some key | _ => None end) h.

Definition ups (h : list Event) : list string :=
  omap (λ ev, match ev with KeyUp _ key => Some key | _ => None end) h.

Definition is_sleep (ev : Event) : bool :=
  match ev with Sleep _ => true | _ => false end.

Definition state_with_commandset (c : gmap string string) (s : State) : State :=
  {| bot := set_commandset c (bot s); history := history s |}.

(** ** Accounting for the pool *)

(** Statements a thread has still to run in its work item. *)
Definition stmts_left (t : Thread) : nat :=
  match t with
  | Idle => 0
  | Running PcLogHandling => 7
  | Running PcGet => 6
  | Running (PcLogExecuting _) => 5
  | Running (PcKeyDown _) => 4
  | Running (PcSleepDuration _) => 3
  | Running (PcKeyUp _) => 2
  | Running PcSleepDelay => 1
  end.

(** 1 for a thread that has taken a work item and not yet dequeued. *)
Definition before_get (t : Thread) : nat :=
  match t with
  | Running PcLogHandling | Running PcGet => 1
  | _ => 0
  end.

(** The key a thread has dequeued and not yet pressed. *)
Definition dequeued_by (t : Thread) : list string :=
  match t with
  | Running (PcLogExecuting key) | Running (PcKeyDown key) => [key]
  | _ => []
  end.

(** The key a thread holds down. *)
Definition pressed_by (t : Thread) : list string :=
  match t with
  | Running (PcSleepDuration key) | Running (PcKeyUp key) => [key]
  | _ => []
  end.

Definition pool_of (σ : System) : ThreadPoolExecutor :=
  input_thread_pool (bot (state σ)).

(** Steps the program has still to take when no call fails: ten per matched
    command (two of the event loop, the take, seven statements). *)
Definition work_left (σ : System) : nat :=
  10 * length (inbox σ)
  + match loop σ with LoopSubmit => 9 | LoopNext => 0 end
  + 8 * work_queue (pool_of σ)
  + sum_list_with stmts_left (threads (pool_of σ)).

#[global] Instance Action_eq_dec : EqDecision Action.
Proof. solve_decision. Defined.

(** The actions that can be enabled at all in [σ]. *)
Definition candidates (σ : System) : list Action :=
  APut :: ASubmit ::
  flat_map (λ i, [ATake i; AExec i]) (seq 0 (length (threads (pool_of σ)))).

Section Scheduler.

Variable sys_platform : string.
Variable emulation_error : Emulator → EmuCall → list Event → option Exn.
Variable sleep_error : Q → list Event → option Exn.

Definition can_fire (σ : System) (a : Action) : bool :=
  match fire sys_platform emulation_error sleep_error a σ with
  | Some _ => true
  | None => false
  end.

(** The first enabled action, if any. *)
Definition next_action (σ : System) : option Action :=
  find (can_fire σ) (candidates σ).

(** At most [n] steps of the scheduler that always takes the first
    enabled action: the schedule taken and the system reached. *)
Fixpoint drive (n : nat) (σ : System) : list Action * System :=
  match n with
  | O => ([], σ)
  | S n =>
      match next_action σ with
      | Some a =>
          match fire sys_platform emulation_error sleep_error a σ with
          | Some σ' => let (sched, σ'') := drive n σ' in (a :: sched, σ'')
          | None => ([], σ)
          end
      | None => ([], σ)
      end
  end.

End Scheduler.

(** A history reports an error when it holds a log record above [INFO]. *)
Definition error_reported (h : list Event) : Prop :=
  ∃ lvl text, Log lvl text ∈ h ∧ lvl ∈ [WARNING; ERROR; CRITICAL].

(** What a whole cycle of [input_queue_pop] on [key] adds to the history. *)
Definition cycle_events (thread_name : string) (emu : Emulator) (key : string)
    (duration delay : Q) : list Event :=
  [Log INFO (thread_name +:+ ": Handling one input from queue.");
   QueueGet key;
   Log INFO (thread_name +:+ ": Executing input: " +:+ key +:+ ".");
   KeyDown emu key;
   Sleep duration;
   KeyUp emu key;
   Sleep delay].

(** What holds of every system reached from [start b ks]: the keys put are
    the matched commands handled so far; the keys got are the head of the
    keys put, the rest is in the queue; every key got is pressed or with the
    thread that got it; every key pressed is released or with the thread
    that holds it; pending work items, threads about to dequeue and the
    submission the event loop owes add up to the queued keys; and
    [time.sleep] takes both holds. *)
Record invariant (sleep_error : Q → list Event → option Exn) (ks : list string)
    (σ : System) : Prop := {
  inv_puts : puts (history (state σ)) ++ inbox σ = ks;
  inv_gets :
    gets (history (state σ)) ++ input_queue (bot (state σ)) = puts (history (state σ));
  inv_dequeued :
    gets (history (state σ)) ≡ₚ
      downs (history (state σ)) ++ (threads (pool_of σ) ≫= dequeued_by);
  inv_pressed :
    downs (history (state σ)) ≡ₚ
      ups (history (state σ)) ++ (threads (pool_of σ) ≫= pressed_by);
  inv_tokens :
    work_queue (pool_of σ) + sum_list_with before_get (threads (pool_of σ))
    + match loop σ with LoopSubmit => 1 | LoopNext => 0 end
    = length (input_queue (bot (state σ)));
  inv_duration : sleep_accepted sleep_error (keypress_duration (bot (state σ)));
  inv_delay : sleep_accepted sleep_error (keypress_delay (bot (state σ)));
}.

(** ** What a message queues *)

(** The keys [event_message] puts for [message] on a bot [b]: the table's
    value for the looked-up text, when the message is not the bot's own and
    the switch is on. *)
Definition queued_by (casefold : string → string) (b : Bot) (message : Message)
    : list string :=
  if echo message then []
  else if twitchplays_commands_enabled b then
    match commandset b !! command casefold b message with
    | Some key_to_press => [key_to_press]
    | None => []
    end
  else [].

(** What holds of every system reached from [start b ks] whether or not
    calls fail: the first three parts of [invariant], and that no key is
    pressed that was not dequeued, none released that was not pressed. *)
Record queue_invariant (ks : list string) (σ : System) : Prop := {
  qi_puts : puts (history (state σ)) ++ inbox σ = ks;
  qi_gets :
    gets (history (state σ)) ++ input_queue (bot (state σ)) = puts (history (state σ));
  qi_tokens :
    work_queue (pool_of σ) + sum_list_with before_get (threads (pool_of σ))
    + match loop σ with LoopSubmit => 1 | LoopNext => 0 end
    = length (input_queue (bot (state σ)));
  qi_downs :
    downs (history (state σ)) ++ (threads (pool_of σ) ≫= dequeued_by)
      ⊆+ gets (history (state σ));
  qi_ups :
    ups (history (state σ)) ++ (threads (pool_of σ) ≫= pressed_by)
      ⊆+ downs (history (state σ));
}.

(** What a pool of one thread keeps besides: the keys are pressed in the
    order they are dequeued and released in the order they are pressed. *)
Record serial_invariant (σ : System) : Prop := {
  si_thread : ∃ t, threads (pool_of σ) = [t];
  si_downs :
    gets (history (state σ))
      = downs (history (state σ)) ++ (threads (pool_of σ) ≫= dequeued_by);
  si_ups :
    downs (history (state σ))
      = ups (history (state σ)) ++ (threads (pool_of σ) ≫= pressed_by);
}.

(** A bot as [__init__] leaves it: nothing queued, nothing pending, every
    thread waiting. *)
Definition fresh (b : Bot) : Prop :=
  input_queue b = [] ∧
  work_queue (input_thread_pool b) = 0 ∧
  Forall (λ t, t = Idle) (threads (input_thread_pool b)).

(** A schedule on two matched commands, with an emulator whose [keyDown]
    fails: thread 0 takes the first command and fails on it, thread 1 has
    taken the second work item and is about to dequeue. *)
Definition example_schedule : list Action :=
  [APut; ASubmit; APut; ASubmit;
   ATake 0; AExec 0; AExec 0; AExec 0; AExec 0;
   ATake 1; AExec 1].

Definition example_system : System :=
  default (start example_bot ["up"; "down"])
    (run "linux" keyDown_fails clock_overflow example_schedule (start example_bot ["up"; "down"])).

(** ** Finding the configuration file

    [find_config] (lines 185-244) against a file system that maps a path, the
    string that names it, to a file with its text or to a directory; parent
    directories and permissions are taken to be in order. *)

Definition CONFIG_NAME : string := "config.toml".
Definition CONFIG_TEMPLATE_NAME : string := "config.example.toml".

Inductive Entry := File (text : string) | Directory.

(** What [template_contents] can hold: a [str], or the [bytes] that
    [pkg_resources.resource_string] returns. *)
Inductive Contents := Str (text : string) | Bytes (data : string).

(** [not template_contents]. *)
Definition is_empty (c : Contents) : bool :=
  match c with
  | Str EmptyString | Bytes EmptyString => true
  | _ => false
  end.

Inductive ConsoleEvent :=
  | Logged (lvl : Level) (text : string)
  | Asked (prompt : string).

Inductive FindExn :=
  | FileExistsError
  | FileNotFoundError
  | IsADirectoryError
  | TypeError.

Record Host := {
  files : gmap string Entry;
  console : list ConsoleEvent;
}.

(** What the function meets besides the files: the answer [util.yn] gets
    from the user, the resources of the installed package ([None] when
    [pkg_resources] cannot be imported), and [sys._MEIPASS] when
    [sys.frozen] is set. *)
Record Setup := {
  yn_answer : bool;
  pkg_resources : option (gmap string string);
  frozen : option string;
}.

Inductive FindResult :=
  | Found (config_path : string)
  | Exit (code : Z)
  | Failed (e : FindExn).

(** [Path.is_file]. *)
Definition is_file (h : Host) (path : string) : bool :=
  match files h !! path with
  | Some (File _) => true
  | _ => false
  end.

(** [Path.read_text]. *)
Definition read_text (h : Host) (path : string) : FindExn + string :=
  match files h !! path with
  | Some (File text) => inr text
  | Some Directory => inl IsADirectoryError
  | None => inl FileNotFoundError
  end.

Definition say (ev : ConsoleEvent) (h : Host) : Host :=
  {| files := files h; console := console h ++ [ev] |}.

Definition put_file (path : string) (text : string) (h : Host) : Host :=
  {| files := <[path:=File text]> (files h); console := console h |}.

Definition newline : string := String (Ascii.ascii_of_nat 10) EmptyString.

Section FindConfig.

(** [Path(a) / b]. *)
Variable joinpath : string → string → string.

Variable setup : Setup.

(** Lines 207-235: the template, looked for in the working directory, then
    in the package resources, then in the bundle directory. *)
Definition find_template (h : Host) (config_template_name : string)
    : FindExn + Contents :=
  let template_contents := Str "" in
  match
    (if is_empty template_contents then
       let config_template_local := config_template_name in
       if is_file h config_template_local then
         match read_text h config_template_local with
         | inr text => inr (Str text)
         | inl e => inl e
         end
       else inr template_contents
     else inr template_contents)
  with
  | inl e => inl e
  | inr template_contents =>
      let template_contents :=
        if is_empty template_contents then
          match pkg_resources setup with
          | None => template_contents
          | Some resources =>
              match resources !! config_template_name with
              | Some data => Bytes data
              | None => template_contents
              end
          end
        else template_contents in
      if is_empty template_contents then
        match frozen setup with
        | Some bundle_dir =>
            let config_template_meipass := joinpath bundle_dir config_template_name in
            match read_text h config_template_meipass with
            | inr text => inr (Str text)
            | inl e => inl e
            end
        | None => inr template_contents
        end
      else inr template_contents
  end.

(** [find_config]. [util] is not among the sources: as the docstring has it,
    [util.q(code)] calls [sys.exit(code)], and [util.yn] returns the user's
    answer. [open(config_path, 'x')] fails on a path that exists and creates
    the empty file otherwise; writing [bytes] to the text file is a
    [TypeError]. *)
Definition find_config (config_name config_template_name : string) (h : Host)
    : FindResult * Host :=
  let config_path := config_name in
  if is_file h config_path then (Found config_path, h)
  else
    let h := say (Logged WARNING ("Config file " +:+ config_name +:+ " does not exist.")) h in
    let h := say (Asked ("Create a template config file from " +:+ config_template_name
                         +:+ "?" +:+ newline +:+ "Y/n" +:+ newline)) h in
    if negb (yn_answer setup) then
      let h := say (Logged CRITICAL "No config file.") h in
      (Exit 1, h)
    else
      match find_template h config_template_name with
      | inl e => (Failed e, h)
      | inr template_contents =>
          match files h !! config_path with
          | Some _ => (Failed FileExistsError, h)
          | None =>
              let h := put_file config_path "" h in
              match template_contents with
              | Bytes _ => (Failed TypeError, h)
              | Str text =>
                  let h := put_file config_path text h in
                  let h :=
                    say (Logged WARNING
                           ("Template config file created. " +:+
                            "Fill in essential details like the Twitch login token, and run the program again."))
                      h in
                  (Exit 2, h)
              end
          end
      end.

End FindConfig.

(** No usable template in the working directory: no such file, or an empty
    one. *)
Definition no_local_template (h : Host) (config_template_name : string) : Prop :=
  is_file h config_template_name = false ∨
  files h !! config_template_name = Some (File "").

(** No template in the package: [pkg_resources] cannot be imported, or the
    resource is not there. *)
Definition no_packaged_template (setup : Setup) (config_template_name : string) : Prop :=
  match pkg_resources setup with
  | None => True
  | Some resources => resources !! config_template_name = None
  end.

(** The resource is in the package and holds nothing:
    [pkg_resources.resource_string] returns [b'']. *)
Definition empty_packaged_template (setup : Setup) (config_template_name : string)
    : Prop :=
  ∃ resources,
    pkg_resources setup = Some resources ∧ resources !! config_template_name = Some "".

(** The file system of a fresh checkout: the template, no configuration. *)
Definition checkout_host : Host :=
  {| files := {[CONFIG_TEMPLATE_NAME := File "[twitch]"]}; console := [] |}.

(** An installed package: no template in the working directory, one in the
    package resources. *)
Definition installed_setup : Setup :=
  {| yn_answer := true;
     pkg_resources := Some {[CONFIG_TEMPLATE_NAME := "[twitch]"]};
     frozen := None |}.

(** An installed package whose template resource is empty. *)
Definition empty_resource_setup : Setup :=
  {| yn_answer := true;
     pkg_resources := Some {[CONFIG_TEMPLATE_NAME := ""]};
     frozen := None |}.

Definition plain_setup (answer : bool) : Setup :=
  {| yn_answer := answer; pkg_resources := None; frozen := None |}.

Definition empty_host : Host := {| files := ∅; console := [] |}.

Definition posix_join (a b : string) : string := a +:+ "/" +:+ b.

(** A bot whose [keypress_duration] is negative. *)
Definition negative_bot : Bot :=
  {| keypress_delay := (-1) # 10;
     keypress_duration := (-1) # 10;
     commandset := test_keys_fbneo;
     case_insensitive := true;
     twitchplays_commands_enabled := true;
     input_queue := ["up"];
     input_thread_pool := {| threads := [Idle]; work_queue := 0 |} |}.

(** A bot whose [keypress_duration] is ten thousand million seconds, more
    than the clock of [time.sleep] holds. *)
Definition overlong_bot : Bot :=
  {| keypress_delay := 1 # 2;
     keypress_duration := 10000000000 # 1;
     commandset := test_keys_fbneo;
     case_insensitive := true;
     twitchplays_commands_enabled := true;
     input_queue := ["up"];
     input_thread_pool := {| threads := [Idle]; work_queue := 0 |} |}.

(** * Properties *)

(** [x ∉ [a; b; ...]] for pairwise distinct constructors. *)
Ltac not_listed :=
  let H := fresh "Hin" in
  intros H;
  repeat (apply elem_of_cons in H as [H|H]; [discriminate H|]);
  apply elem_of_nil in H; exact H.

Ltac stmt_unfold :=
  unfold twitchplays_commands_toggle, process_twitchplays_commands, event_message,
    input_queue_pop, queue_put, queue_get, pool_submit, time_sleep, keyDown, keyUp,
    log_info, emit, write_bot, read_bot, raise, bind, ret in *.

(** ** The control switch *)

Lemma set_enabled_back (b : Bot) (v : bool) :
  set_enabled (twitchplays_commands_enabled b) (set_enabled v b) = b.
Proof. destruct b; reflexivity. Qed.

Lemma toggle_run (s : State) :
  twitchplays_commands_toggle s =
    Ret tt {| bot := set_enabled (negb (twitchplays_commands_enabled (bot s))) (bot s);
              history := history s ++
                [Log INFO ("Twitch Plays commands " +:+
                   (if negb (twitchplays_commands_enabled (bot s))
                    then "enabled" else "disabled") +:+ ".")] |}.
Proof. reflexivity. Qed.

(** C8. Toggling twice in a row gives the switch its first value back, and
    leaves the rest of the bot as it was; one toggle negates the switch,
    which is a boolean throughout. *)
Theorem toggle_twice (s : State) :
  ∃ s1 s2,
    twitchplays_commands_toggle s = Ret tt s1 ∧
    twitchplays_commands_enabled (bot s1) = negb (twitchplays_commands_enabled (bot s)) ∧
    (twitchplays_commands_toggle;; twitchplays_commands_toggle) s = Ret tt s2 ∧
    twitchplays_commands_enabled (bot s2) = twitchplays_commands_enabled (bot s) ∧
    bot s2 = bot s.
Proof.
  eexists _, _. split; [apply toggle_run|]. split; [reflexivity|].
  split; [unfold bind; rewrite toggle_run; apply toggle_run|].
  simpl. rewrite negb_involutive. split; [reflexivity|].
  apply set_enabled_back.
Qed.

(** ** The command processor *)

Section Processor.

Variable casefold : string → string.

Lemma process_hit (message : Message) (s : State) (key : string) :
  commandset (bot s) !! command casefold (bot s) message = Some key →
  process_twitchplays_commands casefold message s =
    Ret true
      {| bot := set_pool
                  {| threads := threads (input_thread_pool (bot s));
                     work_queue := S (work_queue (input_thread_pool (bot s))) |}
                  (set_input_queue (input_queue (bot s) ++ [key]) (bot s));
         history := history s ++
           [Log INFO ("Queueing input: " +:+ key +:+ "."); QueuePut key; PoolSubmit] |}.
Proof.
  intros Hhit. stmt_unfold. simpl. rewrite Hhit. simpl.
  rewrite <- !app_assoc. reflexivity.
Qed.

Lemma process_miss (message : Message) (s : State) :
  commandset (bot s) !! command casefold (bot s) message = None →
  process_twitchplays_commands casefold message s = Ret false s.
Proof. intros Hmiss. stmt_unfold. simpl. rewrite Hmiss. reflexivity. Qed.

Lemma event_message_enabled (message : Message) (s : State) :
  echo message = false →
  twitchplays_commands_enabled (bot s) = true →
  event_message casefold message s =
    match process_twitchplays_commands casefold message
            {| bot := bot s;
               history := history s ++
                 [Log INFO ("Got user message: " +:+ author_name message +:+ ": "
                            +:+ content message)] |} with
    | Ret _ s' =>
        Ret VNone {| bot := bot s';
                     history := history s' ++ [HandleCommands (content message)] |}
    | Raise e s' => Raise e s'
    | Block => Block
    end.
Proof.
  intros Hecho Hon. unfold event_message. rewrite Hecho.
  unfold bind at 1. unfold log_info at 1, emit at 1.
  unfold bind at 1. unfold read_bot at 1. cbn [bot]. rewrite Hon.
  unfold bind.
  destruct (process_twitchplays_commands _ _ _); reflexivity.
Qed.

(** C2. A message whose normalized text is a key of the command table is
    recognised while the switch is on: [process_twitchplays_commands]
    returns [True], the queue grows by exactly the mapped value, at its
    tail, and one work item is submitted; run through [event_message], the
    only [put] of the handling is that value. *)
Theorem matched_message_enqueues_one (message : Message) (s : State) (key : string) :
  twitchplays_commands_enabled (bot s) = true →
  commandset (bot s) !! command casefold (bot s) message = Some key →
  (∃ s', process_twitchplays_commands casefold message s = Ret true s' ∧
         input_queue (bot s') = input_queue (bot s) ++ [key] ∧
         puts (history s') = puts (history s) ++ [key] ∧
         work_queue (input_thread_pool (bot s')) =
           S (work_queue (input_thread_pool (bot s)))) ∧
  (echo message = false →
   ∃ s', event_message casefold message s = Ret VNone s' ∧
         input_queue (bot s') = input_queue (bot s) ++ [key] ∧
         puts (history s') = puts (history s) ++ [key] ∧
         work_queue (input_thread_pool (bot s')) =
           S (work_queue (input_thread_pool (bot s)))).
Proof.
  intros Hon Hhit. split.
  - eexists. split; [apply process_hit, Hhit|]. simpl.
    unfold puts. rewrite omap_app. auto.
  - intros Hecho. rewrite event_message_enabled by assumption.
    rewrite (process_hit message _ key) by exact Hhit.
    eexists. split; [reflexivity|]. simpl.
    unfold puts. rewrite !omap_app. simpl. rewrite !app_nil_r. auto.
Qed.

(** C3. While the switch is off, [event_message] does not run the command
    processor: what it returns is [None], never [True]; the bot, and with
    it the queue and the pool, is as before; the history gains no [put] and
    no submission; and the outcome is the same whatever the command table
    holds. *)
Theorem disabled_message_is_dropped (message : Message) (s : State) :
  twitchplays_commands_enabled (bot s) = false →
  ∃ v s',
    event_message casefold message s = Ret v s' ∧
    truth v = false ∧
    bot s' = bot s ∧
    history s' = history s ++
      (if echo message
       then [Log INFO ("Ignoring message from bot: " +:+ content message)]
       else [Log INFO ("Got user message: " +:+ author_name message +:+ ": "
                       +:+ content message);
             HandleCommands (content message)]) ∧
    ∀ table, event_message casefold message (state_with_commandset table s) =
             Ret v (state_with_commandset table s').
Proof.
  intros Hoff. unfold event_message. destruct (echo message).
  - eexists _, _. repeat split.
  - exists VNone. eexists. stmt_unfold. simpl. rewrite Hoff. simpl.
    rewrite <- !app_assoc. repeat split.
Qed.

(** C6. A message whose normalized text is no key of the command table:
    [process_twitchplays_commands] returns [False] and leaves the state as
    it found it (queue, pool and history alike); through [event_message]
    the bot is unchanged as well. *)
Theorem unmatched_message_no_effect (message : Message) (s : State) :
  commandset (bot s) !! command casefold (bot s) message = None →
  process_twitchplays_commands casefold message s = Ret false s ∧
  ∃ s', event_message casefold message s = Ret VNone s' ∧
        bot s' = bot s ∧
        puts (history s') = puts (history s) ∧
        PoolSubmit ∉ drop (length (history s)) (history s').
Proof.
  intros Hmiss. split; [apply process_miss, Hmiss|].
  unfold event_message. destruct (echo message) eqn:Hecho.
  - eexists. split; [reflexivity|]. simpl. split; [reflexivity|].
    unfold puts. rewrite omap_app, app_nil_r. split; [reflexivity|].
    rewrite drop_app_length. not_listed.
  - destruct (twitchplays_commands_enabled (bot s)) eqn:Hon.
    + pose proof (event_message_enabled message s Hecho Hon) as E.
      unfold event_message in E. rewrite Hecho in E. rewrite E.
      rewrite process_miss by exact Hmiss.
      eexists. split; [reflexivity|]. simpl. split; [reflexivity|].
      unfold puts. rewrite !omap_app, !app_nil_r. split; [reflexivity|].
      rewrite <- app_assoc, drop_app_length. not_listed.
    + eexists. stmt_unfold. simpl. rewrite Hon. simpl.
      split; [reflexivity|]. simpl. split; [reflexivity|].
      unfold puts. rewrite !omap_app, !app_nil_r. split; [reflexivity|].
      rewrite <- app_assoc, drop_app_length. not_listed.
Qed.

End Processor.

(** The messages "LEFT", "jump", "Start" while the switch is on queue
    "left" then "enter"; "jump" alone is not recognised. *)
Example scenario_three_messages :
  match deliver ascii_casefold
          [user_message "LEFT"; user_message "jump"; user_message "Start"]
          {| bot := scenario_bot; history := [] |} with
  | Ret _ s' =>
      input_queue (bot s') = ["left"; "enter"] ∧
      work_queue (input_thread_pool (bot s')) = 2
  | _ => False
  end ∧
  match process_twitchplays_commands ascii_casefold (user_message "jump")
          {| bot := scenario_bot; history := [] |} with
  | Ret recognised s' => recognised = false ∧ input_queue (bot s') = []
  | _ => False
  end.
Proof. vm_compute. repeat split. Qed.

(** A toggle between two matching messages: the second is dropped. *)
Example scenario_toggle_between :
  match (event_message ascii_casefold (user_message "LEFT");;
         twitchplays_commands_toggle;;
         event_message ascii_casefold (user_message "Start"))
          {| bot := scenario_bot; history := [] |} with
  | Ret _ s' =>
      input_queue (bot s') = ["left"] ∧
      twitchplays_commands_enabled (bot s') = false
  | _ => False
  end.
Proof. vm_compute. repeat split. Qed.

(** ** Case folding *)




(** C5. With [case_insensitive] set, the messages "UP" and "up" both match
    the table entry keyed "up" and queue its value; with it unset, a message
    is recognised exactly when its text as sent is a key, so "up" matches and
    "UP" does not unless the table has a key "UP" of its own. The assumption
    on [casefold] is its documented action on ASCII text. *)
Theorem case_insensitive_matching (casefold : string → string) (s : State)
    (key : string) (m_UP m_up : Message) :
  (∀ text, is_ascii text = true → casefold text = ascii_casefold text) →
  content m_UP = "UP" →
  content m_up = "up" →
  commandset (bot s) !! "up" = Some key →
  (case_insensitive (bot s) = true →
   ∃ s1 s2,
     process_twitchplays_commands casefold m_UP s = Ret true s1 ∧
     process_twitchplays_commands casefold m_up s = Ret true s2 ∧
     input_queue (bot s1) = input_queue (bot s) ++ [key] ∧
     input_queue (bot s2) = input_queue (bot s) ++ [key]) ∧
  (case_insensitive (bot s) = false →
   (∀ message,
      (∃ s', process_twitchplays_commands casefold message s = Ret true s') ↔
      is_Some (commandset (bot s) !! content message)) ∧
   (∃ s2, process_twitchplays_commands casefold m_up s = Ret true s2 ∧
          input_queue (bot s2) = input_queue (bot s) ++ [key]) ∧
   (commandset (bot s) !! "UP" = None →
    process_twitchplays_commands casefold m_UP s = Ret false s)).
Proof.
  intros Hfold HUP Hup Hentry. split; intros Hci.
  - assert (command casefold (bot s) m_UP = "up") as E1.
    { unfold command. rewrite Hci, HUP. apply Hfold. reflexivity. }
    assert (command casefold (bot s) m_up = "up") as E2.
    { unfold command. rewrite Hci, Hup. apply Hfold. reflexivity. }
    eexists _, _.
    split; [apply process_hit; rewrite E1; exact Hentry|].
    split; [apply process_hit; rewrite E2; exact Hentry|].
    split; reflexivity.
  - assert (∀ message, command casefold (bot s) message = content message) as E.
    { intros message. unfold command. rewrite Hci. reflexivity. }
    split; [|split].
    + intros message. split.
      * intros [s' Hrun].
        destruct (commandset (bot s) !! content message) eqn:Hlook; [eauto|].
        rewrite process_miss in Hrun by (rewrite E; exact Hlook). discriminate.
      * intros [v Hlook]. eexists. apply process_hit. rewrite E. exact Hlook.
    + eexists. split; [apply process_hit; rewrite E, Hup; exact Hentry|]. reflexivity.
    + intros Hnone. apply process_miss. rewrite E, HUP. exact Hnone.
Qed.

Lemma case_insensitive_matching_witness :
  (∀ text, is_ascii text = true → ascii_casefold text = ascii_casefold text) ∧
  commandset (bot example_state) !! "up" = Some "up" ∧
  ∃ s1 s2,
    process_twitchplays_commands ascii_casefold (user_message "UP") example_state = Ret true s1 ∧
    process_twitchplays_commands ascii_casefold (user_message "up") example_state = Ret true s2 ∧
    input_queue (bot s1) = ["up"] ∧
    input_queue (bot s2) = ["up"].
Proof.
  split; [reflexivity|]. split; [reflexivity|].
  apply (case_insensitive_matching ascii_casefold example_state "up"
           (user_message "UP") (user_message "up")
           (λ _ _, eq_refl) eq_refl eq_refl eq_refl).
  reflexivity.
Defined.







Lemma matched_message_enqueues_one_witness :
  twitchplays_commands_enabled (bot example_state) = true ∧
  commandset (bot example_state) !!
    command ascii_casefold (bot example_state) (user_message "Start") = Some "enter" ∧
  ∃ s', process_twitchplays_commands ascii_casefold (user_message "Start") example_state
          = Ret true s' ∧
        input_queue (bot s') = input_queue (bot example_state) ++ ["enter"] ∧
        puts (history s') = puts (history example_state) ++ ["enter"] ∧
        work_queue (input_thread_pool (bot s')) =
          S (work_queue (input_thread_pool (bot example_state))).
Proof.
  split; [reflexivity|]. split; [reflexivity|].
  apply (matched_message_enqueues_one ascii_casefold (user_message "Start")
           example_state "enter" eq_refl eq_refl).
Defined.

Lemma unmatched_message_no_effect_witness :
  commandset (bot example_state) !!
    command ascii_casefold (bot example_state) (user_message "jump") = None ∧
  process_twitchplays_commands ascii_casefold (user_message "jump") example_state
    = Ret false example_state.
Proof.
  split; [reflexivity|].
  apply (unmatched_message_no_effect ascii_casefold (user_message "jump")
           example_state eq_refl).
Defined.

Lemma disabled_message_is_dropped_witness :
  ∃ v s',
    event_message ascii_casefold (user_message "up")
      {| bot := set_enabled false example_bot; history := [] |} = Ret v s' ∧
    truth v = false ∧
    input_queue (bot s') = [].
Proof.
  destruct (disabled_message_is_dropped ascii_casefold (user_message "up")
              {| bot := set_enabled false example_bot; history := [] |} eq_refl)
    as (v & s' & Hrun & Hv & Hbot & _).
  exists v, s'. rewrite Hbot. repeat split; assumption.
Defined.

(** ** The worker task and the wiring of its two holds *)

Section Worker.

Variable sys_platform : string.
Variable emulation_error : Emulator → EmuCall → list Event → option Exn.
Variable sleep_error : Q → list Event → option Exn.

Lemma input_queue_pop_run (thread_name : string) (s : State) (key : string)
    (q : list string) :
  (∀ emu call h, emulation_error emu call h = None) →
  sleep_accepted sleep_error (keypress_duration (bot s)) →
  sleep_accepted sleep_error (keypress_delay (bot s)) →
  input_queue (bot s) = key :: q →
  input_queue_pop sys_platform emulation_error sleep_error thread_name s =
    Ret tt
      {| bot := set_input_queue q (bot s);
         history := history s ++
           [Log INFO (thread_name +:+ ": Handling one input from queue.");
            QueueGet key;
            Log INFO (thread_name +:+ ": Executing input: " +:+ key +:+ ".");
            KeyDown (input_emulator sys_platform) key;
            Sleep (keypress_duration (bot s));
            KeyUp (input_emulator sys_platform) key;
            Sleep (keypress_delay (bot s))] |}.
Proof.
  intros Hok [Hdur Hsd] [Hdel Hsl] Hq. stmt_unfold. simpl.
  rewrite Hq. simpl. rewrite !Hok. simpl. rewrite Hsd, Hdur. simpl.
  rewrite !Hok. simpl. rewrite Hsl, Hdel. simpl.
  rewrite <- !app_assoc. reflexivity.
Qed.

(** The handlers of the message path and the toggle always return, and
    what they add to the history holds no [Sleep]. *)
Lemma event_message_no_sleep (casefold : string → string) (message : Message)
    (s : State) :
  ∃ s' evs, event_message casefold message s = Ret VNone s' ∧
            history s' = history s ++ evs ∧
            existsb is_sleep evs = false.
Proof.
  unfold event_message. destruct (echo message) eqn:Hecho.
  - eexists _, _. split; [reflexivity|]. split; reflexivity.
  - destruct (twitchplays_commands_enabled (bot s)) eqn:Hon.
    + pose proof (event_message_enabled casefold message s Hecho Hon) as E.
      unfold event_message in E. rewrite Hecho in E. rewrite E.
      destruct (commandset (bot s) !! command casefold (bot s) message) as [v|] eqn:Hlook.
      * rewrite (process_hit casefold message _ v) by exact Hlook.
        eexists _, _. split; [reflexivity|]. simpl.
        rewrite <- !app_assoc. split; reflexivity.
      * rewrite (process_miss casefold message) by exact Hlook.
        eexists _, _. split; [reflexivity|]. simpl.
        rewrite <- !app_assoc. split; reflexivity.
    + stmt_unfold. simpl. rewrite Hon. simpl.
      eexists _, _. split; [reflexivity|]. simpl.
      rewrite <- !app_assoc. split; reflexivity.
Qed.

Lemma close_run (s : State) :
  close s =
    if pool_drained (input_thread_pool (bot s))
    then Ret tt {| bot := bot s;
                   history := history s ++ [Log INFO "Shutting down bot."; SuperClose] |}
    else Block.
Proof.
  unfold close, pool_shutdown. stmt_unfold. simpl.
  destruct (pool_drained (input_thread_pool (bot s))); [|reflexivity].
  simpl. rewrite <- app_assoc. reflexivity.
Qed.

(** C7, as the code has it. One worker cycle on the dequeued key, when no
    emulator call raises and [time.sleep] takes both holds: [keyDown] on
    the key, a hold of [keypress_duration], [keyUp] on the same key, a hold
    of [keypress_delay], in this order and nothing else but the two log
    lines and the dequeue. The two holds are the only calls of [time.sleep]
    in the program: handling a message and toggling the switch return
    without any [Sleep], and so does [close]. But they are not the only
    places where the program waits: [queue.get] waits on an empty queue,
    and [close] waits in [shutdown] for as long as a work item is pending
    or a thread is inside one. *)
Theorem worker_cycle_sequence (thread_name : string) (s : State) (key : string)
    (q : list string) :
  (∀ emu call h, emulation_error emu call h = None) →
  sleep_accepted sleep_error (keypress_duration (bot s)) →
  sleep_accepted sleep_error (keypress_delay (bot s)) →
  input_queue (bot s) = key :: q →
  input_queue_pop sys_platform emulation_error sleep_error thread_name s =
    Ret tt
      {| bot := set_input_queue q (bot s);
         history := history s ++
           [Log INFO (thread_name +:+ ": Handling one input from queue.");
            QueueGet key;
            Log INFO (thread_name +:+ ": Executing input: " +:+ key +:+ ".");
            KeyDown (input_emulator sys_platform) key;
            Sleep (keypress_duration (bot s));
            KeyUp (input_emulator sys_platform) key;
            Sleep (keypress_delay (bot s))] |} ∧
  (∀ casefold message s1,
     ∃ s2 evs, event_message casefold message s1 = Ret VNone s2 ∧
               history s2 = history s1 ++ evs ∧
               existsb is_sleep evs = false) ∧
  (∀ s1, ∃ s2 evs, twitchplays_commands_toggle s1 = Ret tt s2 ∧
                   history s2 = history s1 ++ evs ∧
                   existsb is_sleep evs = false) ∧
  (∀ s1, pool_drained (input_thread_pool (bot s1)) = true →
         ∃ s2 evs, close s1 = Ret tt s2 ∧
                   history s2 = history s1 ++ evs ∧
                   existsb is_sleep evs = false) ∧
  (∀ s1, close s1 = Block ↔ pool_drained (input_thread_pool (bot s1)) = false) ∧
  (∀ s1, input_queue (bot s1) = [] →
         input_queue_pop sys_platform emulation_error sleep_error thread_name s1
           = Block).
Proof.
  intros Hok Hdur Hdel Hq. split; [|split; [|split; [|split; [|split]]]].
  - apply input_queue_pop_run; assumption.
  - intros. apply event_message_no_sleep.
  - intros s1. eexists _, _. split; [apply toggle_run|]. split; reflexivity.
  - intros s1 Hdrained. rewrite close_run, Hdrained.
    eexists _, _. split; [reflexivity|]. split; reflexivity.
  - intros s1. rewrite close_run.
    destruct (pool_drained (input_thread_pool (bot s1))); split;
      try discriminate; reflexivity.
  - intros s1 Hempty. unfold input_queue_pop. stmt_unfold. simpl.
    rewrite Hempty. reflexivity.
Qed.

End Worker.

Lemma worker_cycle_sequence_witness :
  input_queue_pop "linux" no_error clock_overflow "InputHandler_0"
    {| bot := set_input_queue ["up"] example_bot; history := [] |} =
  Ret tt
    {| bot := example_bot;
       history :=
         [Log INFO "InputHandler_0: Handling one input from queue.";
          QueueGet "up";
          Log INFO "InputHandler_0: Executing input: up.";
          KeyDown pyautogui "up";
          Sleep (1 # 10);
          KeyUp pyautogui "up";
          Sleep (1 # 2)] |}.
Proof.
  apply (proj1 (worker_cycle_sequence "linux" no_error clock_overflow "InputHandler_0"
                  {| bot := set_input_queue ["up"] example_bot; history := [] |}
                  "up" [] (λ _ _ _, eq_refl)
                  (conj eq_refl (λ _, eq_refl)) (conj eq_refl (λ _, eq_refl))
                  eq_refl)).
Defined.

(** C7 as stated fails: the holds of a worker are not the only place where
    the program waits. With a thread inside a work item, [close] does not
    return: it has logged its line and waits in [shutdown]. *)
Lemma close_blocks_while_worker_runs :
  pool_drained (input_thread_pool busy_bot) = false ∧
  close {| bot := busy_bot; history := [] |} = Block.
Proof. split; reflexivity. Qed.

Lemma main_wiring (config : Config) (b : Bot) :
  main config = inr b →
  keypress_duration b = bot_keypress_duration config ∧
  keypress_delay b = bot_keypress_duration config ∧
  commandset b = keys config ∧
  case_insensitive b = bot_case_insensitive config.
Proof.
  unfold main, TwitchPlaysRetroArchBot_init.
  destruct (ThreadPoolExecutor_new _); [discriminate|].
  intros [= <-]. repeat split.
Qed.

(** C1. The bot [main] builds for a configuration with
    [keypress_duration = 0.1] and [keypress_delay = 0.5] holds 0.1 between
    key-down and key-up and again 0.1, not the configured 0.5, after key-up:
    [main] passes [config['bot']['keypress_duration']] for both arguments. *)
Theorem main_passes_duration_as_delay :
  bot_keypress_duration example_config = 1 # 10 ∧
  bot_keypress_delay example_config = 1 # 2 ∧
  ∃ b, main example_config = inr b ∧
       keypress_duration b = 1 # 10 ∧
       keypress_delay b = 1 # 10 ∧
       keypress_delay b ≠ bot_keypress_delay example_config ∧
       input_queue_pop "linux" no_error clock_overflow "InputHandler_0"
         {| bot := set_input_queue ["up"] b; history := [] |} =
       Ret tt
         {| bot := b;
            history :=
              [Log INFO "InputHandler_0: Handling one input from queue.";
               QueueGet "up";
               Log INFO "InputHandler_0: Executing input: up.";
               KeyDown pyautogui "up";
               Sleep (1 # 10);
               KeyUp pyautogui "up";
               Sleep (1 # 10)] |}.
Proof.
  split; [reflexivity|]. split; [reflexivity|].
  eexists. split; [reflexivity|]. repeat split. discriminate.
Qed.

(** ** The pool *)

Lemma thread_split (ths : list Thread) (i : nat) (t : Thread) :
  ths !! i = Some t →
  ∃ l1 l2, ths = l1 ++ t :: l2 ∧ ∀ t', <[i:=t']> ths = l1 ++ t' :: l2.
Proof.
  revert i. induction ths as [|t0 ths IH]; intros [|i] Hi; try discriminate.
  - injection Hi as ->. exists [], ths. split; [reflexivity|]. reflexivity.
  - destruct (IH i Hi) as (l1 & l2 & -> & Hins).
    exists (t0 :: l1), l2. split; [reflexivity|].
    intros t'. simpl. rewrite Hins. reflexivity.
Qed.

Lemma puts_snoc (h : list Event) (ev : Event) :
  puts (h ++ [ev]) = puts h ++ match ev with QueuePut key => [key] | _ => [] end.
Proof. unfold puts. rewrite omap_app. destruct ev; reflexivity. Qed.

Lemma gets_snoc (h : list Event) (ev : Event) :
  gets (h ++ [ev]) = gets h ++ match ev with QueueGet key => [key] | _ => [] end.
Proof. unfold gets. rewrite omap_app. destruct ev; reflexivity. Qed.

Lemma downs_snoc (h : list Event) (ev : Event) :
  downs (h ++ [ev]) = downs h ++ match ev with KeyDown _ key => [key] | _ => [] end.
Proof. unfold downs. rewrite omap_app. destruct ev; reflexivity. Qed.

Lemma ups_snoc (h : list Event) (ev : Event) :
  ups (h ++ [ev]) = ups h ++ match ev with KeyUp _ key => [key] | _ => [] end.
Proof. unfold ups. rewrite omap_app. destruct ev; reflexivity. Qed.

Ltac hist_simpl :=
  rewrite ?puts_snoc, ?gets_snoc, ?downs_snoc, ?ups_snoc; cbn [app];
  rewrite ?app_nil_r.

Ltac pool_arith :=
  rewrite ?sum_list_with_app, ?length_app; simpl in *;
  repeat match goal with lp : loop_pc |- _ => destruct lp end; lia.

Section FaultFree.

Variable sys_platform : string.
Variable emulation_error : Emulator → EmuCall → list Event → option Exn.
Variable sleep_error : Q → list Event → option Exn.
Hypothesis no_fault : ∀ emu call h, emulation_error emu call h = None.

Lemma fire_preserves (ks : list string) (a : Action) (σ σ' : System) :
  invariant sleep_error ks σ →
  fire sys_platform emulation_error sleep_error a σ = Some σ' →
  invariant sleep_error ks σ' ∧ work_left σ = S (work_left σ') ∧
  length (threads (pool_of σ')) = length (threads (pool_of σ)).
Proof.
  intros [Hputs Hgets Hdeq Hpre Htok [Hdur Hsd] [Hdel Hsl]] Hfire.
  destruct σ as [[b h] inb lp]. destruct b as [delay dur cs ci en q [ths wq]].
  unfold pool_of, work_left in *. simpl in *.
  assert (sleep_accepted sleep_error dur) as Hadur by (split; assumption).
  assert (sleep_accepted sleep_error delay) as Hadel by (split; assumption).
  destruct a as [| |i|i]; simpl in Hfire.
  - destruct lp; [|discriminate]. destruct inb as [|k rest]; [discriminate|].
    injection Hfire as <-. simpl. split; [|split; [lia|reflexivity]].
    constructor; unfold pool_of; simpl; hist_simpl; try assumption.
    + rewrite <- app_assoc. exact Hputs.
    + rewrite app_assoc, Hgets. reflexivity.
    + rewrite length_app. simpl. lia.
  - destruct lp; [discriminate|]. injection Hfire as <-. simpl.
    split; [|split; [lia|reflexivity]].
    constructor; unfold pool_of; simpl; hist_simpl; try assumption. lia.
  - destruct (ths !! i) as [[|p]|] eqn:Hi; try discriminate.
    destruct wq as [|n]; [discriminate|]. injection Hfire as <-.
    destruct (thread_split ths i Idle Hi) as (l1 & l2 & -> & Hins).
    rewrite Hins. rewrite !bind_app, !bind_cons, !sum_list_with_app in *.
    simpl in *. split; [|split; [pool_arith|rewrite !length_app; reflexivity]].
    constructor; unfold pool_of; simpl; hist_simpl; try assumption.
    + rewrite !bind_app, !bind_cons. exact Hdeq.
    + rewrite !bind_app, !bind_cons. exact Hpre.
    + pool_arith.
  - destruct (ths !! i) as [[|p]|] eqn:Hi; try discriminate.
    destruct (thread_split ths i _ Hi) as (l1 & l2 & -> & Hins).
    rewrite !bind_app, !bind_cons, !sum_list_with_app in *.
    destruct p; simpl in *;
      try (destruct q as [|k q']; [discriminate|]);
      stmt_unfold; simpl in Hfire;
      repeat first [rewrite no_fault in Hfire | rewrite Hsd in Hfire
                   | rewrite Hsl in Hfire | rewrite Hdur in Hfire
                   | rewrite Hdel in Hfire];
      simpl in Hfire; injection Hfire as <-;
      unfold set_thread; cbn [bot history input_thread_pool threads work_queue];
      rewrite Hins;
      (split; [|split; [unfold pool_of; simpl; pool_arith
                       |unfold pool_of; simpl; rewrite !length_app; reflexivity]]);
      constructor; unfold pool_of; simpl; hist_simpl;
      rewrite ?bind_app, ?bind_cons; simpl; try assumption;
      try pool_arith;
      first [ rewrite <- app_assoc; assumption
            | rewrite Hdeq; solve_Permutation
            | rewrite Hpre; solve_Permutation ].
Qed.

Lemma run_preserves (ks : list string) (sched : list Action) (σ σ' : System) :
  invariant sleep_error ks σ →
  run sys_platform emulation_error sleep_error sched σ = Some σ' →
  invariant sleep_error ks σ' ∧ work_left σ = length sched + work_left σ' ∧
  length (threads (pool_of σ')) = length (threads (pool_of σ)).
Proof.
  revert σ. induction sched as [|a sched IH]; intros σ Hinv Hrun; simpl in Hrun.
  - injection Hrun as <-. split; [assumption|split; reflexivity].
  - destruct (fire _ _ _ a σ) as [σ1|] eqn:Hfire; [|discriminate].
    destruct (fire_preserves ks a σ σ1 Hinv Hfire) as (Hinv1 & Hleft & Hlen).
    destruct (IH σ1 Hinv1 Hrun) as (Hinv' & Hleft' & Hlen').
    split; [assumption|]. simpl. split; [lia|congruence].
Qed.

Lemma all_idle_sums (ths : list Thread) :
  Forall (λ t, t = Idle) ths →
  sum_list_with before_get ths = 0 ∧
  ths ≫= dequeued_by = [] ∧
  ths ≫= pressed_by = [] ∧
  sum_list_with stmts_left ths = 0.
Proof.
  induction 1 as [|t ths -> _ (IH1 & IH2 & IH3 & IH4)]; [repeat split|].
  rewrite !bind_cons, IH2, IH3. simpl. rewrite IH1, IH4. repeat split.
Qed.

(** Where nothing can move, everything has been done. *)
Lemma quiescent_done (ks : list string) (σ : System) :
  invariant sleep_error ks σ →
  threads (pool_of σ) ≠ [] →
  (∀ a, fire sys_platform emulation_error sleep_error a σ = None) →
  inbox σ = [] ∧ loop σ = LoopNext ∧
  input_queue (bot (state σ)) = [] ∧
  work_queue (pool_of σ) = 0 ∧
  Forall (λ t, t = Idle) (threads (pool_of σ)) ∧
  gets (history (state σ)) = ks ∧
  downs (history (state σ)) ≡ₚ ks ∧
  ups (history (state σ)) ≡ₚ ks.
Proof.
  intros [Hputs Hgets Hdeq Hpre Htok [Hdur Hsd] [Hdel Hsl]] Hne Hstuck.
  destruct σ as [[b h] inb lp]. destruct b as [delay dur cs ci en q [ths wq]].
  unfold pool_of in *. simpl in *.
  assert (lp = LoopNext) as ->.
  { destruct lp; [reflexivity|]. specialize (Hstuck ASubmit). discriminate. }
  assert (inb = []) as ->.
  { destruct inb; [reflexivity|]. specialize (Hstuck APut). discriminate. }
  assert (Forall (λ t, t = Idle) ths) as Hidle.
  { apply Forall_lookup. intros i [|p] Hi; [reflexivity|]. exfalso.
    specialize (Hstuck (AExec i)). simpl in Hstuck. rewrite Hi in Hstuck.
    destruct p; simpl in Hstuck; stmt_unfold; simpl in Hstuck;
      repeat first [rewrite no_fault in Hstuck | rewrite Hsd in Hstuck
                   | rewrite Hsl in Hstuck | rewrite Hdur in Hstuck
                   | rewrite Hdel in Hstuck];
      try discriminate.
    destruct q; [|discriminate].
    assert (Running PcGet ∈ ths) as Hin by (apply list_elem_of_lookup; eauto).
    apply (sum_list_with_in _ before_get) in Hin. simpl in *. lia. }
  destruct (all_idle_sums ths Hidle) as (Hsum & Hd & Hp & _).
  assert (wq = 0) as ->.
  { destruct wq; [reflexivity|]. exfalso.
    destruct ths as [|t ths]; [by destruct Hne|].
    apply Forall_cons in Hidle as [-> _].
    specialize (Hstuck (ATake 0)). discriminate. }
  assert (q = []) as ->.
  { apply length_zero_iff_nil. lia. }
  rewrite Hd in Hdeq. rewrite Hp in Hpre. rewrite !app_nil_r in *.
  assert (gets h = ks) as Hg by congruence.
  repeat split; try assumption.
  - rewrite <- Hdeq, Hg. reflexivity.
  - rewrite <- Hpre, <- Hdeq, Hg. reflexivity.
Qed.

Lemma candidates_lt (σ : System) (i : nat) (a : Action) :
  i < length (threads (pool_of σ)) →
  a = ATake i ∨ a = AExec i →
  a ∈ candidates σ.
Proof.
  intros Hlt Ha. apply list_elem_of_In. unfold candidates.
  right. right. apply in_flat_map. exists i. split.
  - apply in_seq. lia.
  - simpl. destruct Ha as [-> | ->]; auto.
Qed.

Lemma fire_outside (σ : System) (a : Action) :
  a ∉ candidates σ → fire sys_platform emulation_error sleep_error a σ = None.
Proof.
  intros Hout.
  assert (∀ i, a = ATake i ∨ a = AExec i →
               threads (input_thread_pool (bot (state σ))) !! i = None) as Hge.
  { intros i Ha. apply lookup_ge_None.
    destruct (decide (i < length (threads (pool_of σ)))) as [Hlt|Hge];
      [|unfold pool_of in Hge; lia].
    exfalso. apply Hout. apply (candidates_lt σ i); assumption. }
  destruct a as [| |i|i].
  - exfalso. apply Hout, list_elem_of_In. simpl. auto.
  - exfalso. apply Hout, list_elem_of_In. simpl. auto.
  - simpl. rewrite (Hge i) by auto. reflexivity.
  - simpl. rewrite (Hge i) by auto. reflexivity.
Qed.

Lemma next_action_None (σ : System) :
  next_action sys_platform emulation_error sleep_error σ = None →
  ∀ a, fire sys_platform emulation_error sleep_error a σ = None.
Proof.
  intros Hnone a.
  destruct (decide (a ∈ candidates σ)) as [Hin|Hout]; [|apply fire_outside, Hout].
  apply list_elem_of_In in Hin.
  pose proof (find_none _ _ Hnone a Hin) as Hcan.
  unfold can_fire in Hcan.
  destruct (fire _ _ _ a σ); [discriminate|reflexivity].
Qed.

Lemma next_action_Some (σ : System) (a : Action) :
  next_action sys_platform emulation_error sleep_error σ = Some a →
  ∃ σ', fire sys_platform emulation_error sleep_error a σ = Some σ'.
Proof.
  intros Hsome. apply find_some in Hsome as [_ Hcan].
  unfold can_fire in Hcan.
  destruct (fire _ _ _ a σ) as [σ'|]; [eauto|discriminate].
Qed.

(** The scheduler of [drive] takes a schedule of the program, and with
    enough steps it stops where nothing can move. *)
Lemma drive_complete (ks : list string) (n : nat) (σ : System) :
  invariant sleep_error ks σ →
  work_left σ ≤ n →
  run sys_platform emulation_error sleep_error
    (drive sys_platform emulation_error sleep_error n σ).1 σ
    = Some (drive sys_platform emulation_error sleep_error n σ).2 ∧
  ∀ a, fire sys_platform emulation_error sleep_error a
         (drive sys_platform emulation_error sleep_error n σ).2 = None.
Proof.
  revert σ. induction n as [|n IH]; intros σ Hinv Hn.
  - simpl. split; [reflexivity|].
    destruct (next_action sys_platform emulation_error sleep_error σ) as [a|] eqn:Hnext;
      [|apply next_action_None, Hnext].
    destruct (next_action_Some σ a Hnext) as [σ1 Hfire].
    destruct (fire_preserves ks a σ σ1 Hinv Hfire) as (_ & Hleft & _). lia.
  - simpl.
    destruct (next_action sys_platform emulation_error sleep_error σ) as [a|] eqn:Hnext;
      [|split; [reflexivity|apply next_action_None, Hnext]].
    destruct (next_action_Some σ a Hnext) as [σ1 Hfire]. rewrite Hfire.
    destruct (fire_preserves ks a σ σ1 Hinv Hfire) as (Hinv1 & Hleft & _).
    destruct (IH σ1 Hinv1 ltac:(lia)) as [Hrun Hstuck].
    destruct (drive sys_platform emulation_error sleep_error n σ1) as [sched σ2].
    simpl in *. rewrite Hfire. split; assumption.
Qed.


End FaultFree.



(** ** The model of the pool against the handlers *)

(** Lines 157-159 as the two event-loop steps. *)
Lemma process_as_steps (casefold : string → string) (sys_platform : string)
    (emulation_error : Emulator → EmuCall → list Event → option Exn)
    (sleep_error : Q → list Event → option Exn)
    (message : Message) (σ : System) (key : string) (rest : list string) :
  loop σ = LoopNext →
  inbox σ = key :: rest →
  commandset (bot (state σ)) !! command casefold (bot (state σ)) message = Some key →
  ∃ s', process_twitchplays_commands casefold message (state σ) = Ret true s' ∧
        run sys_platform emulation_error sleep_error [APut; ASubmit] σ
          = Some {| state := s'; inbox := rest; loop := LoopNext |}.
Proof.
  intros Hloop Hinbox Hhit. eexists. split; [apply process_hit, Hhit|].
  destruct σ as [s inb lp]. simpl in *. subst. simpl.
  rewrite <- !app_assoc. reflexivity.
Qed.

(** [input_queue_pop] is its seven statements run back to back. *)
Lemma input_queue_pop_stmts (sys_platform : string)
    (emulation_error : Emulator → EmuCall → list Event → option Exn)
    (sleep_error : Q → list Event → option Exn)
    (thread_name : string) (s : State) :
  input_queue_pop sys_platform emulation_error sleep_error thread_name s =
  run_stmts sys_platform emulation_error sleep_error 7 thread_name PcLogHandling s.
Proof.
  unfold input_queue_pop, run_stmts, worker_stmt. stmt_unfold. simpl.
  destruct (input_queue (bot s)); [reflexivity|]. simpl.
  destruct (emulation_error _ (KeyDownCall _) _); [reflexivity|]. simpl.
  destruct (sleep_error (keypress_duration (bot s)) _); [reflexivity|].
  destruct (Qle_bool 0 (keypress_duration (bot s))); [|reflexivity]. simpl.
  destruct (emulation_error _ (KeyUpCall _) _); [reflexivity|]. simpl.
  destruct (sleep_error (keypress_delay (bot s)) _); [reflexivity|].
  destruct (Qle_bool 0 (keypress_delay (bot s))); reflexivity.
Qed.

(** ** A failing emulator call *)

Lemma cycle_prefix_not_reported (evs : list Event) (thread_name : string)
    (emu : Emulator) (key : string) (duration delay : Q) :
  evs `prefix_of` cycle_events thread_name emu key duration delay →
  ¬ error_reported evs.
Proof.
  intros [k Hk] (lvl & text & Hin & Hlvl).
  assert (Log lvl text ∈ cycle_events thread_name emu key duration delay) as Hin'.
  { rewrite Hk. apply elem_of_app. left. exact Hin. }
  unfold cycle_events in Hin'.
  decompose_list_elem_of; simplify_eq; decompose_list_elem_of; simplify_eq.
Qed.

Lemma stmt_raise_state (sys_platform : string)
    (emulation_error : Emulator → EmuCall → list Event → option Exn)
    (sleep_error : Q → list Event → option Exn)
    (thread_name : string) (p : pc) (s s' : State) (e : Exn) :
  worker_stmt sys_platform emulation_error sleep_error thread_name p s = Raise e s' → s' = s.
Proof.
  destruct s as [b h]. destruct p; simpl; stmt_unfold; simpl.
  - discriminate.
  - destruct (input_queue b); discriminate.
  - discriminate.
  - destruct (emulation_error _ _ _); [|discriminate]. congruence.
  - destruct (sleep_error _ _); [congruence|].
    destruct (Qle_bool _ _); [discriminate|]. congruence.
  - destruct (emulation_error _ _ _); [|discriminate]. congruence.
  - destruct (sleep_error _ _); [congruence|].
    destruct (Qle_bool _ _); [discriminate|]. congruence.
Qed.

Lemma input_queue_pop_raise (sys_platform : string)
    (emulation_error : Emulator → EmuCall → list Event → option Exn)
    (sleep_error : Q → list Event → option Exn)
    (thread_name : string) (s s' : State) (e : Exn) :
  input_queue_pop sys_platform emulation_error sleep_error thread_name s = Raise e s' →
  ∃ key q evs,
    input_queue (bot s) = key :: q ∧
    bot s' = set_input_queue q (bot s) ∧
    history s' = history s ++ evs ∧
    evs `prefix_of` cycle_events thread_name (input_emulator sys_platform) key
                      (keypress_duration (bot s)) (keypress_delay (bot s)) ∧
    length evs < 7.
Proof.
  unfold input_queue_pop. stmt_unfold. simpl.
  destruct (input_queue (bot s)) as [|key q] eqn:Hq; [discriminate|]. simpl.
  intros Hrun. exists key, q.
  destruct (emulation_error _ (KeyDownCall _) _); simpl in Hrun.
  { injection Hrun as <- <-. eexists. simpl. rewrite <- !app_assoc. simpl.
    repeat split; [|simpl; lia]. eexists. reflexivity. }
  destruct (sleep_error (keypress_duration (bot s)) _); simpl in Hrun.
  { injection Hrun as <- <-. eexists. simpl. rewrite <- !app_assoc. simpl.
    repeat split; [|simpl; lia]. eexists. reflexivity. }
  destruct (Qle_bool 0 (keypress_duration (bot s))); simpl in Hrun.
  2:{ injection Hrun as <- <-. eexists. simpl. rewrite <- !app_assoc. simpl.
      repeat split; [|simpl; lia]. eexists. reflexivity. }
  destruct (emulation_error _ (KeyUpCall _) _); simpl in Hrun.
  { injection Hrun as <- <-. eexists. simpl. rewrite <- !app_assoc. simpl.
    repeat split; [|simpl; lia]. eexists. reflexivity. }
  destruct (sleep_error (keypress_delay (bot s)) _); simpl in Hrun.
  { injection Hrun as <- <-. eexists. simpl. rewrite <- !app_assoc. simpl.
    repeat split; [|simpl; lia]. eexists. reflexivity. }
  destruct (Qle_bool 0 (keypress_delay (bot s))); simpl in Hrun; [discriminate|].
  injection Hrun as <- <-. eexists. simpl. rewrite <- !app_assoc. simpl.
  repeat split; [|simpl; lia]. eexists. reflexivity.
Qed.

(** C4, as the code has it. An exception out of [keyDown] or [keyUp] (or
    [time.sleep]) ends the cycle at the failing statement: the key stays
    dequeued and what the cycle had written to the history stays, a proper
    beginning of a whole cycle's events; the pool stores the exception in
    the future of the work item, which nobody holds; nothing is logged.
    In the running pool, the failing statement changes nothing, the thread
    goes back to waiting, the event loop and the other threads are not
    touched, and the thread takes the next pending work item. *)
Theorem worker_failure_is_swallowed (sys_platform : string)
    (emulation_error : Emulator → EmuCall → list Event → option Exn)
    (sleep_error : Q → list Event → option Exn) :
  (∀ thread_name s s' e,
     input_queue_pop sys_platform emulation_error sleep_error thread_name s = Raise e s' →
     work_item_run sys_platform emulation_error sleep_error thread_name s
       = Some (FutureException e, s') ∧
     ∃ key q evs,
       input_queue (bot s) = key :: q ∧
       bot s' = set_input_queue q (bot s) ∧
       history s' = history s ++ evs ∧
       evs `prefix_of` cycle_events thread_name (input_emulator sys_platform) key
                         (keypress_duration (bot s)) (keypress_delay (bot s)) ∧
       length evs < 7 ∧
       ¬ error_reported evs) ∧
  (∀ i σ p e s',
     threads (pool_of σ) !! i = Some (Running p) →
     worker_stmt sys_platform emulation_error sleep_error (thread_name_of i) p (state σ)
       = Raise e s' →
     s' = state σ ∧
     ∃ σ',
       fire sys_platform emulation_error sleep_error (AExec i) σ = Some σ' ∧
       σ' = {| state := set_thread i Idle (state σ); inbox := inbox σ; loop := loop σ |} ∧
       history (state σ') = history (state σ) ∧
       input_queue (bot (state σ')) = input_queue (bot (state σ)) ∧
       threads (pool_of σ') = <[i:=Idle]> (threads (pool_of σ)) ∧
       (∀ n, work_queue (pool_of σ) = S n →
             ∃ σ'', fire sys_platform emulation_error sleep_error (ATake i) σ' = Some σ'' ∧
                    threads (pool_of σ'') !! i = Some (Running PcLogHandling))).
Proof.
  split.
  - intros thread_name s s' e Hrun. split.
    + unfold work_item_run. rewrite Hrun. reflexivity.
    + destruct (input_queue_pop_raise _ _ _ _ _ _ _ Hrun)
        as (key & q & evs & Hq & Hbot & Hhist & Hpre & Hlen).
      exists key, q, evs. repeat split; try assumption.
      eapply cycle_prefix_not_reported, Hpre.
  - intros i σ p e s' Hi Hstmt.
    pose proof (stmt_raise_state _ _ _ _ _ _ _ _ Hstmt) as ->.
    split; [reflexivity|].
    unfold pool_of in *. eexists. split.
    { simpl. rewrite Hi, Hstmt. reflexivity. }
    split; [reflexivity|]. simpl. repeat split.
    intros n Hwq. simpl.
    assert (i < length (threads (input_thread_pool (bot (state σ))))) as Hlt
      by (eapply lookup_lt_Some, Hi).
    rewrite list_lookup_insert_eq by exact Hlt. rewrite Hwq.
    eexists. split; [reflexivity|]. simpl.
    apply list_lookup_insert_eq. rewrite length_insert. exact Hlt.
Qed.

Lemma worker_failure_is_swallowed_witness :
  input_queue_pop "linux" keyDown_fails clock_overflow "InputHandler_0"
    {| bot := set_input_queue ["up"] example_bot; history := [] |}
  = Raise (EmulationError "keyDown failed")
      {| bot := example_bot;
         history := [Log INFO "InputHandler_0: Handling one input from queue.";
                     QueueGet "up";
                     Log INFO "InputHandler_0: Executing input: up."] |} ∧
  work_item_run "linux" keyDown_fails clock_overflow "InputHandler_0"
    {| bot := set_input_queue ["up"] example_bot; history := [] |}
  = Some (FutureException (EmulationError "keyDown failed"),
          {| bot := example_bot;
             history := [Log INFO "InputHandler_0: Handling one input from queue.";
                         QueueGet "up";
                         Log INFO "InputHandler_0: Executing input: up."] |}).
Proof.
  split; [reflexivity|].
  apply (proj1 (worker_failure_is_swallowed "linux" keyDown_fails clock_overflow)
           "InputHandler_0"
           {| bot := set_input_queue ["up"] example_bot; history := [] |}
           _ _ eq_refl).
Defined.

(** C4 as stated fails: [keyDown] raises, the work item ends with the
    exception in its future, and the history of the whole run holds the two
    [INFO] lines written before the call and no report of the error. *)
Lemma emulation_error_not_reported :
  ∃ s',
    work_item_run "linux" keyDown_fails clock_overflow "InputHandler_0"
      {| bot := set_input_queue ["up"] example_bot; history := [] |}
    = Some (FutureException (EmulationError "keyDown failed"), s') ∧
    history s' = [Log INFO "InputHandler_0: Handling one input from queue.";
                  QueueGet "up";
                  Log INFO "InputHandler_0: Executing input: up."] ∧
    ¬ error_reported (history s').
Proof.
  eexists. split; [reflexivity|]. split; [reflexivity|].
  apply (cycle_prefix_not_reported _ "InputHandler_0" pyautogui "up" (1 # 10) (1 # 2)).
  eexists. reflexivity.
Qed.

(** * Further properties of the handlers *)

(** X1. [main] fails with the pool's [ValueError] exactly when
    [input_threads] is below one; otherwise the bot starts with the switch
    on, an empty queue, no pending work, [input_threads] waiting threads,
    and the table and case flag of the configuration. *)
Theorem main_pool_size (config : Config) :
  ((bot_input_threads config ≤ 0)%Z →
   main config = inl (ValueError "max_workers must be greater than 0")) ∧
  ((0 < bot_input_threads config)%Z →
   ∃ b, main config = inr b ∧
        twitchplays_commands_enabled b = true ∧
        input_queue b = [] ∧
        work_queue (input_thread_pool b) = 0 ∧
        threads (input_thread_pool b)
          = replicate (Z.to_nat (bot_input_threads config)) Idle ∧
        length (threads (input_thread_pool b)) = Z.to_nat (bot_input_threads config) ∧
        commandset b = keys config ∧
        case_insensitive b = bot_case_insensitive config).
Proof.
  unfold main, TwitchPlaysRetroArchBot_init, ThreadPoolExecutor_new. split; intros HK.
  - destruct (bot_input_threads config <=? 0)%Z eqn:E; [reflexivity|lia].
  - destruct (bot_input_threads config <=? 0)%Z eqn:E; [lia|].
    eexists. split; [reflexivity|]. simpl. rewrite length_replicate. repeat split.
Qed.

Lemma main_pool_size_witness :
  ∃ b, main example_config = inr b ∧ threads (input_thread_pool b) = [Idle; Idle].
Proof.
  destruct (proj2 (main_pool_size example_config) ltac:(reflexivity))
    as (b & Hmain & _ & _ & _ & Hths & _).
  exists b. split; [exact Hmain|exact Hths].
Defined.

Section MessagePath.

Variable casefold : string → string.

Lemma queued_by_stable (b b' : Bot) (message : Message) :
  commandset b' = commandset b →
  case_insensitive b' = case_insensitive b →
  twitchplays_commands_enabled b' = twitchplays_commands_enabled b →
  queued_by casefold b' message = queued_by casefold b message.
Proof.
  intros Hc Hci Hen. unfold queued_by, command. rewrite Hc, Hci, Hen. reflexivity.
Qed.

Lemma event_message_echo (message : Message) (s : State) :
  echo message = true →
  event_message casefold message s =
    Ret VNone {| bot := bot s;
                 history := history s ++
                   [Log INFO ("Ignoring message from bot: " +:+ content message)] |}.
Proof. intros Hecho. unfold event_message. rewrite Hecho. reflexivity. Qed.

Lemma event_message_off (message : Message) (s : State) :
  echo message = false →
  twitchplays_commands_enabled (bot s) = false →
  event_message casefold message s =
    Ret VNone {| bot := bot s;
                 history := history s ++
                   [Log INFO ("Got user message: " +:+ author_name message +:+ ": "
                              +:+ content message);
                    HandleCommands (content message)] |}.
Proof.
  intros Hecho Hoff. unfold event_message. rewrite Hecho. stmt_unfold. simpl.
  rewrite Hoff. simpl. rewrite <- !app_assoc. reflexivity.
Qed.

Lemma event_message_hit (message : Message) (s : State) (key : string) :
  echo message = false →
  twitchplays_commands_enabled (bot s) = true →
  commandset (bot s) !! command casefold (bot s) message = Some key →
  event_message casefold message s =
    Ret VNone
      {| bot := set_pool
                  {| threads := threads (input_thread_pool (bot s));
                     work_queue := S (work_queue (input_thread_pool (bot s))) |}
                  (set_input_queue (input_queue (bot s) ++ [key]) (bot s));
         history := history s ++
           [Log INFO ("Got user message: " +:+ author_name message +:+ ": "
                      +:+ content message);
            Log INFO ("Queueing input: " +:+ key +:+ ".");
            QueuePut key; PoolSubmit;
            HandleCommands (content message)] |}.
Proof.
  intros Hecho Hon Hlook. rewrite (event_message_enabled casefold message s Hecho Hon).
  rewrite (process_hit casefold message _ key) by exact Hlook.
  simpl. rewrite <- !app_assoc. reflexivity.
Qed.

Lemma event_message_miss (message : Message) (s : State) :
  echo message = false →
  twitchplays_commands_enabled (bot s) = true →
  commandset (bot s) !! command casefold (bot s) message = None →
  event_message casefold message s =
    Ret VNone {| bot := bot s;
                 history := history s ++
                   [Log INFO ("Got user message: " +:+ author_name message +:+ ": "
                              +:+ content message);
                    HandleCommands (content message)] |}.
Proof.
  intros Hecho Hon Hlook. rewrite (event_message_enabled casefold message s Hecho Hon).
  rewrite (process_miss casefold message) by exact Hlook.
  simpl. rewrite <- !app_assoc. reflexivity.
Qed.

(** What one message does to the queue, the pending work and the [put]s,
    and what it leaves alone. *)
Lemma event_message_queue (message : Message) (s : State) :
  ∃ s',
    event_message casefold message s = Ret VNone s' ∧
    input_queue (bot s') = input_queue (bot s) ++ queued_by casefold (bot s) message ∧
    work_queue (input_thread_pool (bot s'))
      = work_queue (input_thread_pool (bot s))
        + length (queued_by casefold (bot s) message) ∧
    puts (history s') = puts (history s) ++ queued_by casefold (bot s) message ∧
    commandset (bot s') = commandset (bot s) ∧
    twitchplays_commands_enabled (bot s') = twitchplays_commands_enabled (bot s) ∧
    case_insensitive (bot s') = case_insensitive (bot s).
Proof.
  unfold queued_by. destruct (echo message) eqn:Hecho.
  { rewrite event_message_echo by exact Hecho. eexists. split; [reflexivity|]. simpl.
    rewrite puts_snoc, !app_nil_r, Nat.add_0_r. split_and!; reflexivity. }
  destruct (twitchplays_commands_enabled (bot s)) eqn:Hon.
  2:{ rewrite event_message_off by assumption. eexists. split; [reflexivity|]. simpl.
      unfold puts. rewrite omap_app. simpl.
      rewrite !app_nil_r, Nat.add_0_r. split_and!; reflexivity || assumption. }
  destruct (commandset (bot s) !! command casefold (bot s) message) as [key|] eqn:Hlook.
  - rewrite (event_message_hit message s key) by assumption.
    eexists. split; [reflexivity|]. simpl. unfold puts. rewrite omap_app. simpl.
    split_and!; try reflexivity; try assumption. lia.
  - rewrite event_message_miss by assumption. eexists. split; [reflexivity|]. simpl.
    unfold puts. rewrite omap_app. simpl.
    rewrite !app_nil_r, Nat.add_0_r. split_and!; reflexivity || assumption.
Qed.

(** X2. [event_message] always returns [None]; the queue grows at its tail
    by [queued_by], one key or none, and the pending work items by as many;
    what the history gains holds as many [put]s; the threads, the table, the
    switch, the case flag and the two holds are as before; and
    [handle_commands] is reached exactly for a message that is not the bot's
    own. *)
Theorem event_message_effect (message : Message) (s : State) :
  ∃ s' evs,
    event_message casefold message s = Ret VNone s' ∧
    history s' = history s ++ evs ∧
    input_queue (bot s') = input_queue (bot s) ++ queued_by casefold (bot s) message ∧
    work_queue (input_thread_pool (bot s'))
      = work_queue (input_thread_pool (bot s))
        + length (queued_by casefold (bot s) message) ∧
    puts evs = queued_by casefold (bot s) message ∧
    threads (input_thread_pool (bot s')) = threads (input_thread_pool (bot s)) ∧
    commandset (bot s') = commandset (bot s) ∧
    twitchplays_commands_enabled (bot s') = twitchplays_commands_enabled (bot s) ∧
    case_insensitive (bot s') = case_insensitive (bot s) ∧
    keypress_duration (bot s') = keypress_duration (bot s) ∧
    keypress_delay (bot s') = keypress_delay (bot s) ∧
    (HandleCommands (content message) ∈ evs ↔ echo message = false).
Proof.
  unfold queued_by. destruct (echo message) eqn:Hecho.
  { rewrite event_message_echo by exact Hecho. eexists _, _.
    split; [reflexivity|]. split; [reflexivity|]. simpl.
    rewrite app_nil_r, Nat.add_0_r.
    split_and!; try reflexivity.
    split; [intros Hin; exfalso; revert Hin; not_listed|discriminate]. }
  assert (∀ evs, HandleCommands (content message) ∈
                   evs ++ [HandleCommands (content message)] ↔ false = false) as Hlast.
  { intros evs. split; [reflexivity|]. intros _. apply elem_of_app. right.
    apply list_elem_of_singleton. reflexivity. }
  destruct (twitchplays_commands_enabled (bot s)) eqn:Hon.
  2:{ rewrite event_message_off by assumption. eexists _, _.
      split; [reflexivity|]. split; [reflexivity|]. simpl.
    rewrite app_nil_r, Nat.add_0_r.
      split_and!; try reflexivity; try assumption.
      apply (Hlast [_]). }
  destruct (commandset (bot s) !! command casefold (bot s) message) as [key|] eqn:Hlook.
  - rewrite (event_message_hit message s key) by assumption. eexists _, _.
    split; [reflexivity|]. split; [reflexivity|]. simpl.
    split_and!; try reflexivity; try assumption; [lia|].
    apply (Hlast [_; _; _; _]).
  - rewrite event_message_miss by assumption. eexists _, _.
    split; [reflexivity|]. split; [reflexivity|]. simpl.
    rewrite app_nil_r, Nat.add_0_r.
    split_and!; try reflexivity; try assumption.
    apply (Hlast [_]).
Qed.

(** X3. Messages handled one after the other queue their keys in the order
    of arrival, one per recognised message, repeated commands included, and
    submit one work item for each. *)
Theorem deliver_queues_in_order (messages : list Message) (s : State) :
  ∃ s',
    deliver casefold messages s = Ret tt s' ∧
    input_queue (bot s')
      = input_queue (bot s) ++ flat_map (queued_by casefold (bot s)) messages ∧
    work_queue (input_thread_pool (bot s'))
      = work_queue (input_thread_pool (bot s))
        + length (flat_map (queued_by casefold (bot s)) messages) ∧
    puts (history s')
      = puts (history s) ++ flat_map (queued_by casefold (bot s)) messages.
Proof.
  revert s. induction messages as [|message messages IH]; intros s.
  - exists s. simpl. rewrite !app_nil_r, Nat.add_0_r. repeat split.
  - destruct (event_message_queue message s)
      as (s1 & Hrun & Hq & Hwq & Hputs & Hc & Hen & Hci).
    destruct (IH s1) as (s2 & Hrun2 & Hq2 & Hwq2 & Hputs2).
    assert (∀ m, queued_by casefold (bot s1) m = queued_by casefold (bot s) m) as Hsame.
    { intros m. apply queued_by_stable; assumption. }
    rewrite (flat_map_ext _ _ Hsame) in Hq2, Hwq2, Hputs2.
    exists s2. simpl. unfold bind. rewrite Hrun. split; [exact Hrun2|].
    rewrite Hq2, Hwq2, Hputs2, Hq, Hwq, Hputs.
    rewrite length_app, <- !app_assoc. repeat split. lia.
Qed.

(** X4. One toggle of a switch that is on makes the next message queue
    nothing and submit nothing, whatever it says; a second toggle before the
    message lets it queue what it would have queued at first. *)
Theorem toggle_gates_next_message (message : Message) (s : State) :
  twitchplays_commands_enabled (bot s) = true →
  ∃ s1 s2,
    (twitchplays_commands_toggle;; event_message casefold message) s = Ret VNone s1 ∧
    input_queue (bot s1) = input_queue (bot s) ∧
    input_thread_pool (bot s1) = input_thread_pool (bot s) ∧
    puts (history s1) = puts (history s) ∧
    (twitchplays_commands_toggle;; twitchplays_commands_toggle;;
     event_message casefold message) s = Ret VNone s2 ∧
    input_queue (bot s2) = input_queue (bot s) ++ queued_by casefold (bot s) message ∧
    twitchplays_commands_enabled (bot s2) = true.
Proof.
  intros Hon.
  set (h1 := history s ++ [Log INFO "Twitch Plays commands disabled."]).
  set (s_off := {| bot := set_enabled false (bot s); history := h1 |}).
  set (s_on := {| bot := bot s;
                  history := h1 ++ [Log INFO "Twitch Plays commands enabled."] |}).
  assert (twitchplays_commands_toggle s = Ret tt s_off) as Ht1.
  { rewrite toggle_run, Hon. reflexivity. }
  assert (twitchplays_commands_toggle s_off = Ret tt s_on) as Ht2.
  { rewrite toggle_run. unfold s_on. simpl.
    rewrite <- Hon at 1. rewrite set_enabled_back. reflexivity. }
  destruct (event_message_queue message s_off)
    as (s1 & Hrun1 & Hq1 & Hwq1 & Hputs1 & _).
  destruct (event_message_queue message s_on)
    as (s2 & Hrun2 & Hq2 & _ & _ & _ & Hen2 & _).
  assert (queued_by casefold (bot s_off) message = []) as Hnone.
  { unfold queued_by. simpl. destruct (echo message); reflexivity. }
  rewrite Hnone in *. rewrite app_nil_r in *.
  exists s1, s2. unfold bind. rewrite Ht1, Ht2.
  split; [exact Hrun1|]. split; [exact Hq1|].
  split.
  { destruct (echo message) eqn:Hecho.
    - rewrite event_message_echo in Hrun1 by exact Hecho. injection Hrun1 as <-.
      reflexivity.
    - rewrite event_message_off in Hrun1 by (exact Hecho || reflexivity).
      injection Hrun1 as <-. reflexivity. }
  split.
  { rewrite Hputs1. unfold s_off, h1. simpl. rewrite puts_snoc, app_nil_r. reflexivity. }
  split; [exact Hrun2|]. split; [exact Hq2|]. rewrite Hen2. exact Hon.
Qed.

End MessagePath.

(** * Further properties of the worker task *)

Section WorkerOutcomes.

Variable sys_platform : string.
Variable emulation_error : Emulator → EmuCall → list Event → option Exn.
Variable sleep_error : Q → list Event → option Exn.

(** X5. [input_queue_pop] blocks exactly on an empty queue. On a queue with
    head [key] it returns exactly when [keyDown] and [keyUp] on [key] do not
    raise and [time.sleep] takes both holds (neither is negative and neither
    is refused, as a length beyond the clock's range is), and then it has
    dequeued [key] and the history has gained the whole cycle; in every
    other case it raises. *)
Theorem input_queue_pop_outcomes (thread_name : string) (s : State) :
  (input_queue_pop sys_platform emulation_error sleep_error thread_name s = Block ↔
   input_queue (bot s) = []) ∧
  ∀ key q,
    input_queue (bot s) = key :: q →
    let cycle := cycle_events thread_name (input_emulator sys_platform) key
                   (keypress_duration (bot s)) (keypress_delay (bot s)) in
    let ok :=
      emulation_error (input_emulator sys_platform) (KeyDownCall key)
        (history s ++ take 3 cycle) = None ∧
      sleep_error (keypress_duration (bot s)) (history s ++ take 4 cycle) = None ∧
      Qle_bool 0 (keypress_duration (bot s)) = true ∧
      emulation_error (input_emulator sys_platform) (KeyUpCall key)
        (history s ++ take 5 cycle) = None ∧
      sleep_error (keypress_delay (bot s)) (history s ++ take 6 cycle) = None ∧
      Qle_bool 0 (keypress_delay (bot s)) = true in
    (ok →
     input_queue_pop sys_platform emulation_error sleep_error thread_name s
       = Ret tt {| bot := set_input_queue q (bot s); history := history s ++ cycle |}) ∧
    (¬ ok →
     ∃ e s', input_queue_pop sys_platform emulation_error sleep_error thread_name s = Raise e s').
Proof.
  split.
  - unfold input_queue_pop. stmt_unfold. simpl.
    destruct (input_queue (bot s)) as [|key q]; [split; reflexivity|]. simpl.
    split; [|discriminate].
    destruct (emulation_error _ (KeyDownCall _) _); [discriminate|]. simpl.
    destruct (sleep_error (keypress_duration (bot s)) _); [discriminate|].
    destruct (Qle_bool 0 (keypress_duration (bot s))); [|discriminate]. simpl.
    destruct (emulation_error _ (KeyUpCall _) _); [discriminate|]. simpl.
    destruct (sleep_error (keypress_delay (bot s)) _); [discriminate|].
    destruct (Qle_bool 0 (keypress_delay (bot s))); discriminate.
  - intros key q Hq. simpl.
    unfold input_queue_pop. stmt_unfold. simpl. rewrite Hq. simpl.
    rewrite <- !app_assoc. simpl.
    destruct (emulation_error _ (KeyDownCall _) _) as [e1|]; simpl.
    { split; [intros [? _]; discriminate|]. eauto. }
    destruct (sleep_error (keypress_duration (bot s)) _) as [e2|]; simpl.
    { split; [intros (_ & ? & _); discriminate|]. eauto. }
    destruct (Qle_bool 0 (keypress_duration (bot s))); simpl.
    2:{ split; [intros (_ & _ & ? & _); discriminate|]. eauto. }
    rewrite <- !app_assoc. simpl.
    destruct (emulation_error _ (KeyUpCall _) _) as [e3|]; simpl.
    { split; [intros (_ & _ & _ & ? & _); discriminate|]. eauto. }
    destruct (sleep_error (keypress_delay (bot s)) _) as [e4|]; simpl.
    { split; [intros (_ & _ & _ & _ & ? & _); discriminate|]. eauto. }
    destruct (Qle_bool 0 (keypress_delay (bot s))); simpl.
    2:{ split; [intros (_ & _ & _ & _ & _ & ?); discriminate|]. eauto. }
    rewrite <- !app_assoc. simpl.
    split; [reflexivity|]. intros Hnot. exfalso. apply Hnot. repeat split.
Qed.

(** X6. When [keyDown] went through and the hold that follows is negative,
    or [keyUp] raises, the cycle ends with the key pressed and not
    released: the history has gained the key-down and no key-up. *)
Theorem failed_cycle_leaves_key_down (thread_name : string) (s : State)
    (key : string) (q : list string) :
  let cycle := cycle_events thread_name (input_emulator sys_platform) key
                 (keypress_duration (bot s)) (keypress_delay (bot s)) in
  input_queue (bot s) = key :: q →
  emulation_error (input_emulator sys_platform) (KeyDownCall key)
    (history s ++ take 3 cycle) = None →
  Qle_bool 0 (keypress_duration (bot s)) = false ∨
  emulation_error (input_emulator sys_platform) (KeyUpCall key)
    (history s ++ take 5 cycle) ≠ None →
  ∃ e s',
    input_queue_pop sys_platform emulation_error sleep_error thread_name s = Raise e s' ∧
    input_queue (bot s') = q ∧
    downs (history s') = downs (history s) ++ [key] ∧
    ups (history s') = ups (history s).
Proof.
  simpl. intros Hq Hdown Hfail.
  unfold input_queue_pop. stmt_unfold. simpl. rewrite Hq. simpl.
  rewrite <- !app_assoc. simpl. rewrite Hdown. simpl.
  destruct (sleep_error (keypress_duration (bot s)) _) as [e0|]; simpl.
  { eexists _, _. split; [reflexivity|]. simpl.
    unfold downs, ups. rewrite !omap_app. simpl. rewrite app_nil_r. repeat split. }
  destruct (Qle_bool 0 (keypress_duration (bot s))); simpl.
  - destruct Hfail as [?|Hup]; [discriminate|].
    rewrite <- !app_assoc. simpl.
    destruct (emulation_error _ (KeyUpCall _) _) as [e|]; [|congruence]. simpl.
    eexists _, _. split; [reflexivity|]. simpl.
    unfold downs, ups. rewrite !omap_app. simpl. rewrite app_nil_r. repeat split.
  - eexists _, _. split; [reflexivity|]. simpl.
    unfold downs, ups. rewrite !omap_app. simpl. rewrite app_nil_r. repeat split.
Qed.

End WorkerOutcomes.

Lemma failed_cycle_leaves_key_down_witness :
  ∃ e s',
    input_queue_pop "linux" no_error clock_overflow "InputHandler_0"
      {| bot := negative_bot; history := [] |} = Raise e s' ∧
    input_queue (bot s') = [] ∧
    downs (history s') = ["up"] ∧
    ups (history s') = [].
Proof.
  apply (failed_cycle_leaves_key_down "linux" no_error clock_overflow "InputHandler_0"
           {| bot := negative_bot; history := [] |} "up" []
           eq_refl eq_refl (or_introl eq_refl)).
Defined.

Lemma input_queue_pop_outcomes_witness :
  input_queue_pop "linux" no_error clock_overflow "InputHandler_0"
    {| bot := set_input_queue ["up"] example_bot; history := [] |}
  = Ret tt {| bot := set_input_queue [] (set_input_queue ["up"] example_bot);
              history := cycle_events "InputHandler_0" pyautogui "up" (1 # 10) (1 # 2) |} ∧
  ∃ e s',
    input_queue_pop "linux" no_error clock_overflow "InputHandler_0"
      {| bot := overlong_bot; history := [] |} = Raise e s'.
Proof.
  split.
  - apply (proj1 (proj2 (input_queue_pop_outcomes "linux" no_error clock_overflow
                           "InputHandler_0"
                           {| bot := set_input_queue ["up"] example_bot; history := [] |})
                    "up" [] eq_refl)).
    repeat split.
  - apply (proj2 (proj2 (input_queue_pop_outcomes "linux" no_error clock_overflow
                           "InputHandler_0" {| bot := overlong_bot; history := [] |})
                    "up" [] eq_refl)).
    intros (_ & Hsleep & _). discriminate Hsleep.
Defined.

(** A hold beyond the range of the clock: [time.sleep] raises
    [OverflowError] once [keyDown] has gone through, and the key stays
    down. *)
Lemma overlong_hold_raises :
  input_queue_pop "linux" no_error clock_overflow "InputHandler_0"
    {| bot := overlong_bot; history := [] |}
  = Raise (OverflowError "timestamp too large to convert to C _PyTime_t")
      {| bot := set_input_queue [] overlong_bot;
         history := [Log INFO "InputHandler_0: Handling one input from queue.";
                     QueueGet "up";
                     Log INFO "InputHandler_0: Executing input: up.";
                     KeyDown pyautogui "up"] |}.
Proof. vm_compute. reflexivity. Qed.

Lemma toggle_gates_next_message_witness :
  ∃ s1,
    (twitchplays_commands_toggle;; event_message ascii_casefold (user_message "up"))
      example_state = Ret VNone s1 ∧
    input_queue (bot s1) = [].
Proof.
  destruct (toggle_gates_next_message ascii_casefold (user_message "up")
              example_state eq_refl) as (s1 & s2 & Hrun & Hq & _).
  exists s1. split; [exact Hrun|exact Hq].
Defined.

(** * The pool when calls may fail *)

Lemma stmt_block (sys_platform : string)
    (emulation_error : Emulator → EmuCall → list Event → option Exn)
    (sleep_error : Q → list Event → option Exn)
    (thread_name : string) (p : pc) (s : State) :
  worker_stmt sys_platform emulation_error sleep_error thread_name p s = Block →
  p = PcGet ∧ input_queue (bot s) = [].
Proof.
  destruct s as [b h]. destruct p; simpl; stmt_unfold; simpl; try discriminate.
  - destruct (input_queue b); [auto|discriminate].
  - destruct (emulation_error _ _ _); discriminate.
  - destruct (sleep_error _ _); [discriminate|]. destruct (Qle_bool _ _); discriminate.
  - destruct (emulation_error _ _ _); discriminate.
  - destruct (sleep_error _ _); [discriminate|]. destruct (Qle_bool _ _); discriminate.
Qed.

Lemma init_fresh (delay duration : Q) (K : Z) (cs : gmap string string) (ci : bool)
    (b : Bot) :
  TwitchPlaysRetroArchBot_init delay duration K cs ci = inr b →
  fresh b ∧ threads (input_thread_pool b) = replicate (Z.to_nat K) Idle ∧ (0 < K)%Z.
Proof.
  unfold TwitchPlaysRetroArchBot_init, ThreadPoolExecutor_new.
  destruct (K <=? 0)%Z eqn:HK; [discriminate|]. intros [= <-].
  split; [|split; [reflexivity|lia]].
  split; [reflexivity|]. split; [reflexivity|].
  simpl. apply Forall_replicate. reflexivity.
Qed.

Lemma start_queue_invariant (b : Bot) (ks : list string) :
  fresh b →
  queue_invariant ks (start b ks) ∧ work_left (start b ks) = 10 * length ks.
Proof.
  intros (Hq & Hwq & Hidle).
  destruct (all_idle_sums _ Hidle) as (H1 & H2 & H3 & H4).
  split.
  - constructor; unfold pool_of, start;
      cbn [state bot history input_thread_pool threads work_queue inbox loop
           input_queue]; rewrite ?Hq, ?Hwq, ?H1, ?H2, ?H3; reflexivity.
  - unfold work_left, pool_of.
    cbn [start state bot input_thread_pool threads work_queue inbox loop].
    rewrite Hwq, H4. lia.
Qed.

Section AnyEmulator.

Variable sys_platform : string.
Variable emulation_error : Emulator → EmuCall → list Event → option Exn.
Variable sleep_error : Q → list Event → option Exn.

Lemma fire_preserves_queue (ks : list string) (a : Action) (σ σ' : System) :
  queue_invariant ks σ →
  fire sys_platform emulation_error sleep_error a σ = Some σ' →
  queue_invariant ks σ' ∧ work_left σ' < work_left σ ∧
  length (threads (pool_of σ')) = length (threads (pool_of σ)).
Proof.
  intros [Hputs Hgets Htok Hd Hu] Hfire.
  destruct σ as [[b h] inb lp]. destruct b as [delay dur cs ci en q [ths wq]].
  unfold pool_of, work_left in *. simpl in *.
  destruct a as [| |i|i]; simpl in Hfire.
  - destruct lp; [|discriminate]. destruct inb as [|k rest]; [discriminate|].
    injection Hfire as <-. simpl. split; [|split; [lia|reflexivity]].
    constructor; unfold pool_of; simpl; hist_simpl; try assumption.
    + rewrite <- app_assoc. exact Hputs.
    + rewrite app_assoc, Hgets. reflexivity.
    + rewrite length_app. simpl. lia.
  - destruct lp; [discriminate|]. injection Hfire as <-. simpl.
    split; [|split; [lia|reflexivity]].
    constructor; unfold pool_of; simpl; hist_simpl; try assumption. lia.
  - destruct (ths !! i) as [[|p]|] eqn:Hi; try discriminate.
    destruct wq as [|n]; [discriminate|]. injection Hfire as <-.
    destruct (thread_split ths i Idle Hi) as (l1 & l2 & -> & Hins).
    rewrite Hins. rewrite !bind_app, !bind_cons, !sum_list_with_app in *.
    simpl in *. split; [|split; [pool_arith|rewrite !length_app; reflexivity]].
    constructor; unfold pool_of; simpl; hist_simpl; try assumption.
    + pool_arith.
    + rewrite !bind_app, !bind_cons. exact Hd.
    + rewrite !bind_app, !bind_cons. exact Hu.
  - destruct (ths !! i) as [[|p]|] eqn:Hi; try discriminate.
    destruct (thread_split ths i _ Hi) as (l1 & l2 & -> & Hins).
    rewrite !bind_app, !bind_cons, !sum_list_with_app in *.
    destruct p; simpl in *;
      try (destruct q as [|k q']; [discriminate|]);
      stmt_unfold; simpl in Hfire;
      repeat match type of Hfire with
             | context [emulation_error ?e ?c ?h] =>
                 destruct (emulation_error e c h); simpl in Hfire
             | context [sleep_error ?a ?h] =>
                 destruct (sleep_error a h); simpl in Hfire
             | context [Qle_bool ?a ?b] =>
                 destruct (Qle_bool a b); simpl in Hfire
             end;
      injection Hfire as <-;
      unfold set_thread; cbn [bot history input_thread_pool threads work_queue];
      rewrite Hins;
      (split; [|split; [unfold pool_of; simpl; pool_arith
                       |unfold pool_of; simpl; rewrite !length_app; reflexivity]]);
      constructor; unfold pool_of; simpl; hist_simpl;
      rewrite ?bind_app, ?bind_cons; simpl; try assumption;
      try pool_arith;
      first [ rewrite <- app_assoc; assumption
            | rewrite <- Hd; solve_submseteq
            | rewrite <- Hu; solve_submseteq
            | (etrans; [|apply (submseteq_skips_r _ _ _ Hd)]); solve_submseteq
            | (etrans; [|apply (submseteq_skips_r _ _ _ Hu)]); solve_submseteq ].
Qed.

Lemma run_preserves_queue (ks : list string) (sched : list Action) (σ σ' : System) :
  queue_invariant ks σ →
  run sys_platform emulation_error sleep_error sched σ = Some σ' →
  queue_invariant ks σ' ∧ length sched + work_left σ' ≤ work_left σ ∧
  length (threads (pool_of σ')) = length (threads (pool_of σ)).
Proof.
  revert σ. induction sched as [|a sched IH]; intros σ Hinv Hrun; simpl in Hrun.
  - injection Hrun as <-. split; [assumption|]. split; [simpl; lia|reflexivity].
  - destruct (fire _ _ _ a σ) as [σ1|] eqn:Hfire; [|discriminate].
    destruct (fire_preserves_queue ks a σ σ1 Hinv Hfire) as (Hinv1 & Hleft & Hlen).
    destruct (IH σ1 Hinv1 Hrun) as (Hinv' & Hleft' & Hlen').
    split; [assumption|]. simpl. split; [lia|congruence].
Qed.

Lemma running_thread_fires (ks : list string) (σ : System) (i : nat) (p : pc) :
  queue_invariant ks σ →
  threads (pool_of σ) !! i = Some (Running p) →
  is_Some (fire sys_platform emulation_error sleep_error (AExec i) σ).
Proof.
  intros Hinv Hi. unfold pool_of in Hi. simpl. rewrite Hi.
  destruct (worker_stmt _ _ _ _ p (state σ)) as [[p'|] s'|e s'|] eqn:Hstmt; eauto.
  exfalso. apply stmt_block in Hstmt as [-> Hq].
  pose proof (qi_tokens _ _ Hinv) as Htok. rewrite Hq in Htok. simpl in Htok.
  assert (Running PcGet ∈ threads (pool_of σ)) as Hin
    by (apply list_elem_of_lookup; eauto).
  apply (sum_list_with_in _ before_get) in Hin. simpl in Hin. lia.
Qed.

Lemma quiescent_dequeued (ks : list string) (σ : System) :
  queue_invariant ks σ →
  threads (pool_of σ) ≠ [] →
  (∀ a, fire sys_platform emulation_error sleep_error a σ = None) →
  inbox σ = [] ∧ input_queue (bot (state σ)) = [] ∧
  work_queue (pool_of σ) = 0 ∧
  Forall (λ t, t = Idle) (threads (pool_of σ)) ∧
  gets (history (state σ)) = ks.
Proof.
  intros Hinv Hne Hstuck.
  assert (Forall (λ t, t = Idle) (threads (pool_of σ))) as Hidle.
  { apply Forall_lookup. intros i [|p] Hi; [reflexivity|]. exfalso.
    destruct (running_thread_fires ks σ i p Hinv Hi) as [σ' Hfire].
    rewrite Hstuck in Hfire. discriminate. }
  destruct Hinv as [Hputs Hgets Htok _ _].
  destruct (all_idle_sums _ Hidle) as (Hsum & _).
  destruct σ as [[b h] inb lp]. destruct b as [delay dur cs ci en q [ths wq]].
  unfold pool_of in *. simpl in *.
  assert (lp = LoopNext) as ->.
  { destruct lp; [reflexivity|]. specialize (Hstuck ASubmit). discriminate. }
  assert (inb = []) as ->.
  { destruct inb; [reflexivity|]. specialize (Hstuck APut). discriminate. }
  assert (wq = 0) as ->.
  { destruct wq; [reflexivity|]. exfalso.
    destruct ths as [|t ths]; [by destruct Hne|].
    apply Forall_cons in Hidle as [-> _].
    specialize (Hstuck (ATake 0)). discriminate. }
  assert (q = []) as -> by (apply length_zero_iff_nil; lia).
  rewrite !app_nil_r in *. repeat split; try assumption. congruence.
Qed.

End AnyEmulator.

(** X7. Whatever calls fail and whatever the holds are: along every
    schedule the keys dequeued so far, the keys in the queue and the
    commands still to come are, in this order, the matched commands, so that
    keys leave the queue in the order they entered it, none twice and none
    lost; and no schedule is longer than ten steps per command. *)
Theorem queue_is_fifo_whatever_fails (sys_platform : string)
    (emulation_error : Emulator → EmuCall → list Event → option Exn)
    (sleep_error : Q → list Event → option Exn)
    (b : Bot) (ks : list string) (sched : list Action) (σ : System) :
  fresh b →
  run sys_platform emulation_error sleep_error sched (start b ks) = Some σ →
  gets (history (state σ)) ++ input_queue (bot (state σ)) ++ inbox σ = ks ∧
  puts (history (state σ)) = gets (history (state σ)) ++ input_queue (bot (state σ)) ∧
  length (gets (history (state σ))) ≤ length ks ∧
  length sched ≤ 10 * length ks.
Proof.
  intros Hfresh Hrun.
  destruct (start_queue_invariant b ks Hfresh) as [Hinv Hleft].
  destruct (run_preserves_queue sys_platform emulation_error sleep_error ks sched _ σ Hinv Hrun)
    as ([Hputs Hgets _ _ _] & Hlen & _).
  split; [rewrite app_assoc, Hgets; exact Hputs|].
  split; [symmetry; exact Hgets|].
  split; [|lia].
  rewrite <- Hputs, <- Hgets, !length_app. lia.
Qed.

Lemma example_bot_fresh : fresh example_bot.
Proof. split; [reflexivity|]. split; [reflexivity|]. repeat constructor. Qed.

Lemma example_system_run :
  run "linux" keyDown_fails clock_overflow example_schedule (start example_bot ["up"; "down"])
    = Some example_system.
Proof. vm_compute. reflexivity. Qed.

Lemma queue_is_fifo_whatever_fails_witness :
  fresh example_bot ∧
  run "linux" keyDown_fails clock_overflow example_schedule (start example_bot ["up"; "down"])
    = Some example_system ∧
  gets (history (state example_system)) ++ input_queue (bot (state example_system))
    ++ inbox example_system = ["up"; "down"].
Proof.
  split; [exact example_bot_fresh|]. split; [exact example_system_run|].
  apply (queue_is_fifo_whatever_fails "linux" keyDown_fails clock_overflow example_bot
           ["up"; "down"] example_schedule example_system
           example_bot_fresh example_system_run).
Defined.

(** X8. Whatever calls fail: a thread inside a work item can always take
    its next step, in particular it never waits at [queue.get] on an empty
    queue; and when nothing can move, every matched command has been
    dequeued by a thread, the queue is empty, no work item is pending and
    all threads wait. *)
Theorem dispatched_thread_never_blocks (sys_platform : string)
    (emulation_error : Emulator → EmuCall → list Event → option Exn)
    (sleep_error : Q → list Event → option Exn)
    (b : Bot) (ks : list string) (sched : list Action) (σ : System) :
  fresh b →
  threads (input_thread_pool b) ≠ [] →
  run sys_platform emulation_error sleep_error sched (start b ks) = Some σ →
  (∀ i p, threads (pool_of σ) !! i = Some (Running p) →
          is_Some (fire sys_platform emulation_error sleep_error (AExec i) σ)) ∧
  ((∀ a, fire sys_platform emulation_error sleep_error a σ = None) →
   gets (history (state σ)) = ks ∧
   inbox σ = [] ∧ input_queue (bot (state σ)) = [] ∧
   work_queue (pool_of σ) = 0 ∧
   Forall (λ t, t = Idle) (threads (pool_of σ))).
Proof.
  intros Hfresh Hne Hrun.
  destruct (start_queue_invariant b ks Hfresh) as [Hinv _].
  destruct (run_preserves_queue sys_platform emulation_error sleep_error ks sched _ σ Hinv Hrun)
    as (Hinv' & _ & Hlen).
  split.
  - intros i p Hi. eapply running_thread_fires; eassumption.
  - intros Hstuck.
    assert (threads (pool_of σ) ≠ []) as Hne'.
    { intros Hnil. rewrite Hnil in Hlen. unfold pool_of in Hlen. simpl in Hlen.
      destruct (threads (input_thread_pool b)); [congruence|discriminate]. }
    destruct (quiescent_dequeued sys_platform emulation_error sleep_error ks σ Hinv' Hne' Hstuck)
      as (Hinb & Hq & Hwq & Hidle & Hg).
    repeat split; assumption.
Qed.

Lemma dispatched_thread_never_blocks_witness :
  threads (pool_of example_system) !! 1 = Some (Running PcGet) ∧
  is_Some (fire "linux" keyDown_fails clock_overflow (AExec 1) example_system).
Proof.
  split; [reflexivity|].
  apply (proj1 (dispatched_thread_never_blocks "linux" keyDown_fails clock_overflow example_bot
                  ["up"; "down"] example_schedule example_system
                  example_bot_fresh ltac:(discriminate) example_system_run)
           1 PcGet).
  reflexivity.
Defined.

(** X9. Whatever calls fail: at every moment the keys released are among
    the keys pressed, and the keys pressed among the keys dequeued, each as
    often at most; so the emulator is only ever asked for keys of matched
    commands, and never to release a key that is not down. *)
Theorem presses_follow_the_queue (sys_platform : string)
    (emulation_error : Emulator → EmuCall → list Event → option Exn)
    (sleep_error : Q → list Event → option Exn)
    (b : Bot) (ks : list string) (sched : list Action) (σ : System) :
  fresh b →
  run sys_platform emulation_error sleep_error sched (start b ks) = Some σ →
  ups (history (state σ)) ⊆+ downs (history (state σ)) ∧
  downs (history (state σ)) ⊆+ gets (history (state σ)) ∧
  gets (history (state σ)) `prefix_of` ks ∧
  (∀ key, key ∈ downs (history (state σ)) → key ∈ ks) ∧
  length (ups (history (state σ))) ≤ length (downs (history (state σ))) ∧
  length (downs (history (state σ))) ≤ length ks.
Proof.
  intros Hfresh Hrun.
  destruct (start_queue_invariant b ks Hfresh) as [Hinv _].
  destruct (run_preserves_queue sys_platform emulation_error sleep_error ks sched _ σ Hinv Hrun)
    as ([Hputs Hgets _ Hd Hu] & _ & _).
  assert (ups (history (state σ)) ⊆+ downs (history (state σ))) as Hud.
  { etrans; [|exact Hu]. apply submseteq_inserts_r. reflexivity. }
  assert (downs (history (state σ)) ⊆+ gets (history (state σ))) as Hdg.
  { etrans; [|exact Hd]. apply submseteq_inserts_r. reflexivity. }
  assert (gets (history (state σ)) `prefix_of` ks) as Hpre.
  { exists (input_queue (bot (state σ)) ++ inbox σ).
    rewrite app_assoc, Hgets. symmetry. exact Hputs. }
  split; [exact Hud|]. split; [exact Hdg|]. split; [exact Hpre|].
  split; [|split].
  - intros key Hin. destruct Hpre as [k ->]. apply elem_of_app. left.
    eapply elem_of_submseteq; eassumption.
  - apply submseteq_length, Hud.
  - etrans; [apply submseteq_length, Hdg|]. apply prefix_length, Hpre.
Qed.

Lemma presses_follow_the_queue_witness :
  gets (history (state example_system)) = ["up"] ∧
  ups (history (state example_system)) ⊆+ downs (history (state example_system)) ∧
  downs (history (state example_system)) ⊆+ gets (history (state example_system)).
Proof.
  split; [reflexivity|].
  destruct (presses_follow_the_queue "linux" keyDown_fails clock_overflow example_bot
              ["up"; "down"] example_schedule example_system
              example_bot_fresh example_system_run) as (H1 & H2 & _).
  split; assumption.
Defined.

(** * One thread, and more than one *)

Lemma start_invariant (sleep_error : Q → list Event → option Exn)
    (b : Bot) (ks : list string) :
  fresh b →
  sleep_accepted sleep_error (keypress_duration b) →
  sleep_accepted sleep_error (keypress_delay b) →
  invariant sleep_error ks (start b ks).
Proof.
  intros (Hq & Hwq & Hidle) Hdur Hdel.
  destruct (all_idle_sums _ Hidle) as (H1 & H2 & H3 & _).
  constructor; unfold pool_of, start;
    cbn [state bot history input_thread_pool threads work_queue inbox loop
         input_queue]; rewrite ?Hq, ?Hwq, ?H1, ?H2, ?H3; try reflexivity; assumption.
Qed.

Section OneThread.

Variable sys_platform : string.
Variable emulation_error : Emulator → EmuCall → list Event → option Exn.
Variable sleep_error : Q → list Event → option Exn.
Hypothesis no_fault : ∀ emu call h, emulation_error emu call h = None.

Lemma fire_preserves_serial (ks : list string) (a : Action) (σ σ' : System) :
  invariant sleep_error ks σ →
  serial_invariant σ →
  fire sys_platform emulation_error sleep_error a σ = Some σ' →
  serial_invariant σ'.
Proof.
  intros [_ _ _ _ _ [Hdur Hsd] [Hdel Hsl]] [[t Ht] Hd Hu] Hfire.
  destruct σ as [[b h] inb lp]. destruct b as [delay dur cs ci en q [ths wq]].
  unfold pool_of in *. simpl in *. subst ths.
  rewrite !bind_cons in *. simpl in *. rewrite !app_nil_r in *.
  destruct a as [| |i|i]; simpl in Hfire.
  - destruct lp; [|discriminate]. destruct inb as [|k rest]; [discriminate|].
    injection Hfire as <-.
    constructor; unfold pool_of; simpl; hist_simpl; rewrite ?bind_singleton; eauto.
  - destruct lp; [discriminate|]. injection Hfire as <-.
    constructor; unfold pool_of; simpl; hist_simpl; rewrite ?bind_singleton; eauto.
  - destruct i as [|i]; simpl in Hfire; [|discriminate].
    destruct t; [|discriminate]. destruct wq; [discriminate|].
    injection Hfire as <-. simpl in Hd, Hu. rewrite app_nil_r in Hd, Hu.
    constructor; unfold pool_of; cbn -[mbind gets downs ups puts]; hist_simpl;
      rewrite ?bind_singleton; cbn [dequeued_by pressed_by]; rewrite ?app_nil_r; eauto.
  - destruct i as [|i]; simpl in Hfire; [|discriminate].
    destruct t as [|p]; [discriminate|].
    destruct p; simpl in *;
      try (destruct q as [|k q']; [discriminate|]);
      stmt_unfold; simpl in Hfire;
      repeat first [rewrite no_fault in Hfire | rewrite Hsd in Hfire
                   | rewrite Hsl in Hfire | rewrite Hdur in Hfire
                   | rewrite Hdel in Hfire];
      simpl in Hfire; injection Hfire as <-;
      constructor; unfold pool_of, set_thread; cbn -[mbind gets downs ups puts];
      hist_simpl;
      rewrite ?bind_singleton; cbn [dequeued_by pressed_by]; rewrite ?app_nil_r in *;
      eauto; congruence.
Qed.

Lemma run_preserves_serial (ks : list string) (sched : list Action) (σ σ' : System) :
  invariant sleep_error ks σ →
  serial_invariant σ →
  run sys_platform emulation_error sleep_error sched σ = Some σ' →
  serial_invariant σ'.
Proof.
  revert σ. induction sched as [|a sched IH]; intros σ Hinv Hser Hrun; simpl in Hrun.
  - injection Hrun as <-. exact Hser.
  - destruct (fire _ _ _ a σ) as [σ1|] eqn:Hfire; [|discriminate].
    destruct (fire_preserves sys_platform emulation_error sleep_error no_fault ks a σ σ1 Hinv Hfire)
      as (Hinv1 & _).
    apply (IH σ1 Hinv1 (fire_preserves_serial ks a σ σ1 Hinv Hser Hfire) Hrun).
Qed.

End OneThread.

(** X10. With one thread ([input_threads = 1]), no emulator call failing
    and both holds lengths that [time.sleep] takes, the keys are pressed in the order they were queued
    and released in the order they were pressed: at every moment the keys
    released are the first of the keys pressed, those the first of the keys
    dequeued, those the first of the matched commands; and when nothing can
    move, the keys pressed and the keys released are the matched commands,
    in their order. *)
Theorem one_thread_presses_in_order (sys_platform : string)
    (emulation_error : Emulator → EmuCall → list Event → option Exn)
    (sleep_error : Q → list Event → option Exn)
    (b : Bot) (ks : list string) (sched : list Action) (σ : System) :
  (∀ emu call h, emulation_error emu call h = None) →
  fresh b →
  threads (input_thread_pool b) = [Idle] →
  sleep_accepted sleep_error (keypress_duration b) →
  sleep_accepted sleep_error (keypress_delay b) →
  run sys_platform emulation_error sleep_error sched (start b ks) = Some σ →
  ups (history (state σ)) `prefix_of` downs (history (state σ)) ∧
  downs (history (state σ)) `prefix_of` gets (history (state σ)) ∧
  gets (history (state σ)) `prefix_of` ks ∧
  ((∀ a, fire sys_platform emulation_error sleep_error a σ = None) →
   downs (history (state σ)) = ks ∧ ups (history (state σ)) = ks).
Proof.
  intros Hok Hfresh Hone Hdur Hdel Hrun.
  pose proof (start_invariant sleep_error b ks Hfresh Hdur Hdel) as Hinv.
  assert (serial_invariant (start b ks)) as Hser.
  { constructor; unfold pool_of, start; simpl; rewrite ?Hone; eauto. }
  pose proof (run_preserves_serial sys_platform emulation_error sleep_error Hok ks sched _ σ
                Hinv Hser Hrun) as [[t Ht] Hd Hu].
  destruct (run_preserves sys_platform emulation_error sleep_error Hok ks sched _ σ Hinv Hrun)
    as (Hinv' & _ & _).
  split; [eexists; exact Hu|]. split; [eexists; exact Hd|].
  split.
  { exists (input_queue (bot (state σ)) ++ inbox σ).
    rewrite app_assoc, (inv_gets _ _ _ Hinv'). symmetry. apply (inv_puts _ _ _ Hinv'). }
  intros Hstuck.
  assert (threads (pool_of σ) ≠ []) as Hne by (rewrite Ht; discriminate).
  destruct (quiescent_done sys_platform emulation_error sleep_error Hok ks σ Hinv' Hne Hstuck)
    as (_ & _ & _ & _ & Hidle & Hg & _).
  destruct (all_idle_sums _ Hidle) as (_ & H2 & H3 & _).
  rewrite H2, app_nil_r in Hd. rewrite H3, app_nil_r in Hu. split; congruence.
Qed.

Lemma one_thread_presses_in_order_witness :
  ∃ σ,
    run "linux" no_error clock_overflow
      (drive "linux" no_error clock_overflow 20 (start scenario_bot ["left"; "enter"])).1
      (start scenario_bot ["left"; "enter"]) = Some σ ∧
    downs (history (state σ)) = ["left"; "enter"] ∧
    ups (history (state σ)) = ["left"; "enter"].
Proof.
  assert (fresh scenario_bot) as Hfresh.
  { split; [reflexivity|]. split; [reflexivity|]. repeat constructor. }
  destruct (drive_complete "linux" no_error clock_overflow (λ _ _ _, eq_refl) ["left"; "enter"] 20
              (start scenario_bot ["left"; "enter"])
              (start_invariant clock_overflow scenario_bot _ Hfresh
                 (conj eq_refl (λ _, eq_refl)) (conj eq_refl (λ _, eq_refl)))
              ltac:(vm_compute; lia)) as [Hrun Hstuck].
  eexists. split; [exact Hrun|].
  apply (one_thread_presses_in_order "linux" no_error clock_overflow scenario_bot ["left"; "enter"]
           _ _ (λ _ _ _, eq_refl) Hfresh eq_refl
           (conj eq_refl (λ _, eq_refl)) (conj eq_refl (λ _, eq_refl)) Hrun).
  exact Hstuck.
Defined.

(** One step of a schedule, the system it leads to worked out. *)
Ltac fire_step :=
  cbn [run];
  match goal with
  | |- context [fire ?sp ?em ?se ?a ?σ] =>
      let r := eval cbv -[thread_name_of String.append] in (fire sp em se a σ) in
      change (fire sp em se a σ) with r
  end;
  cbv beta iota.

(** The same for a statement that calls the emulator, which [H] says does
    not raise. *)
Ltac fire_step_with H :=
  cbn [run];
  match goal with
  | |- context [fire ?sp ?em ?se ?a ?σ] =>
      let r := eval cbv -[thread_name_of String.append] in (fire sp em se a σ) in
      change (fire sp em se a σ) with r
  end;
  rewrite H; cbv beta iota.

(** X11. With two threads or more the order is not kept: for any two
    matched commands there is a schedule after which the key of the second
    is down while the key of the first, dequeued before it, has not been
    pressed yet. *)
Theorem two_threads_can_press_out_of_order (sys_platform : string)
    (emulation_error : Emulator → EmuCall → list Event → option Exn)
    (sleep_error : Q → list Event → option Exn)
    (b : Bot) (k1 k2 : string) (rest : list string) (ths : list Thread) :
  (∀ emu call h, emulation_error emu call h = None) →
  fresh b →
  threads (input_thread_pool b) = Idle :: Idle :: ths →
  ∃ sched σ,
    run sys_platform emulation_error sleep_error sched (start b (k1 :: k2 :: rest)) = Some σ ∧
    gets (history (state σ)) = [k1; k2] ∧
    downs (history (state σ)) = [k2] ∧
    threads (pool_of σ) !! 0 = Some (Running (PcLogExecuting k1)).
Proof.
  intros Hok (Hq & Hwq & _) Hths.
  destruct b as [delay dur cs ci en q [ths0 wq]]. simpl in *. subst q wq ths0.
  exists [APut; ASubmit; APut; ASubmit; ATake 0; ATake 1;
          AExec 0; AExec 0; AExec 1; AExec 1; AExec 1; AExec 1].
  eexists. split.
  - unfold start. do 11 fire_step. fire_step_with Hok. reflexivity.
  - unfold gets, downs, pool_of. cbn -[thread_name_of String.append]. repeat split.
Qed.

Lemma two_threads_can_press_out_of_order_witness :
  ∃ sched σ,
    run "linux" no_error clock_overflow sched (start example_bot ["up"; "down"]) = Some σ ∧
    gets (history (state σ)) = ["up"; "down"] ∧
    downs (history (state σ)) = ["down"].
Proof.
  destruct (two_threads_can_press_out_of_order "linux" no_error clock_overflow example_bot
              "up" "down" [] [] (λ _ _ _, eq_refl) example_bot_fresh eq_refl)
    as (sched & σ & Hrun & Hg & Hd & _).
  exists sched, σ. repeat split; assumption.
Defined.

(** * Finding the configuration file *)

Section FindConfigProperties.

Variable joinpath : string → string → string.
Variable setup : Setup.

Lemma is_file_lookup (h : Host) (path : string) :
  is_file h path = true ↔ ∃ text, files h !! path = Some (File text).
Proof.
  unfold is_file. destruct (files h !! path) as [[text|]|]; split;
    try discriminate; try (intros [? [=]]); eauto.
Qed.

Lemma find_config_missing (config_name config_template_name : string) (h : Host) :
  is_file h config_name = false →
  ∃ h1,
    h1 = say (Asked ("Create a template config file from " +:+ config_template_name
                     +:+ "?" +:+ newline +:+ "Y/n" +:+ newline))
           (say (Logged WARNING ("Config file " +:+ config_name +:+ " does not exist.")) h) ∧
    find_config joinpath setup config_name config_template_name h =
      if negb (yn_answer setup) then (Exit 1, say (Logged CRITICAL "No config file.") h1)
      else
        match find_template joinpath setup h1 config_template_name with
        | inl e => (Failed e, h1)
        | inr template_contents =>
            match files h !! config_name with
            | Some _ => (Failed FileExistsError, h1)
            | None =>
                match template_contents with
                | Bytes _ => (Failed TypeError, put_file config_name "" h1)
                | Str text =>
                    (Exit 2,
                     say (Logged WARNING
                            ("Template config file created. " +:+
                             "Fill in essential details like the Twitch login token, and run the program again."))
                       (put_file config_name text (put_file config_name "" h1)))
                end
            end
        end.
Proof.
  intros Hmiss. eexists. split; [reflexivity|].
  unfold find_config. rewrite Hmiss. reflexivity.
Qed.

(** X12. [find_config] returns a path exactly when the configuration file
    is there already: the path is the given name, nothing is asked, logged
    or written. When the file is missing the user is asked, and the call
    ends in an exit or an exception. *)
Theorem find_config_returns_iff_exists (config_name config_template_name : string)
    (h : Host) :
  (is_file h config_name = true →
   find_config joinpath setup config_name config_template_name h
     = (Found config_name, h)) ∧
  (∀ path, (find_config joinpath setup config_name config_template_name h).1
             = Found path →
           path = config_name ∧ is_file h config_name = true) ∧
  (is_file h config_name = false →
   ∃ prompt, Asked prompt ∈
     console (find_config joinpath setup config_name config_template_name h).2).
Proof.
  split; [|split].
  - intros Hfile. unfold find_config. rewrite Hfile. reflexivity.
  - intros path. destruct (is_file h config_name) eqn:Hfile.
    + unfold find_config. rewrite Hfile. simpl. intros [= <-]. auto.
    + destruct (find_config_missing config_name config_template_name h Hfile)
        as (h1 & _ & ->).
      destruct (negb (yn_answer setup)); [discriminate|].
      destruct (find_template _ _ _ _) as [e|[text|data]]; [discriminate| |];
        destruct (files h !! config_name); discriminate.
  - intros Hfile.
    destruct (find_config_missing config_name config_template_name h Hfile)
      as (h1 & -> & ->).
    eexists.
    destruct (negb (yn_answer setup));
      [|destruct (find_template _ _ _ _) as [e|[text|data]];
        destruct (files h !! config_name)];
      simpl; rewrite ?elem_of_app, ?list_elem_of_singleton; eauto 10.
Qed.

(** X13. [find_config] touches no path but the configuration file's own,
    leaves the file system alone when that path exists (as a file or a
    directory) or when the user declines, and only ever adds to the
    console. *)
Theorem find_config_frame (config_name config_template_name : string) (h : Host) :
  let h' := (find_config joinpath setup config_name config_template_name h).2 in
  (∀ path, path ≠ config_name → files h' !! path = files h !! path) ∧
  (is_Some (files h !! config_name) → files h' = files h) ∧
  (yn_answer setup = false → files h' = files h) ∧
  console h `prefix_of` console h'.
Proof.
  simpl. destruct (is_file h config_name) eqn:Hfile.
  { unfold find_config. rewrite Hfile. simpl. repeat split. reflexivity. }
  destruct (find_config_missing config_name config_template_name h Hfile)
    as (h1 & -> & ->).
  destruct (negb (yn_answer setup)) eqn:Hyn.
  { simpl. repeat split. rewrite <- !app_assoc. eexists. reflexivity. }
  apply negb_false_iff in Hyn.
  destruct (find_template _ _ _ _) as [e|[text|data]];
    destruct (files h !! config_name) eqn:Hcfg; simpl.
  all: split; [intros path Hne; rewrite ?lookup_insert_ne by congruence; reflexivity|].
  all: split; [first [reflexivity | intros [? [=]]]|].
  all: split; [first [reflexivity | congruence]|].
  all: rewrite <- ?app_assoc; eexists; reflexivity.
Qed.

(** X14. [find_config] exits with code 2 exactly when the configuration
    path is free, the user agrees and the template search ends with a
    [str]; the configuration file then holds that text, and a second call
    returns its path without asking. *)
Theorem find_config_creates_from_template (config_name config_template_name : string)
    (h : Host) :
  let r := find_config joinpath setup config_name config_template_name h in
  (r.1 = Exit 2 ↔
   files h !! config_name = None ∧ yn_answer setup = true ∧
   ∃ text, find_template joinpath setup h config_template_name = inr (Str text)) ∧
  (r.1 = Exit 2 →
   ∃ text,
     find_template joinpath setup h config_template_name = inr (Str text) ∧
     files r.2 = <[config_name:=File text]> (files h) ∧
     find_config joinpath setup config_name config_template_name r.2
       = (Found config_name, r.2)).
Proof.
  simpl.
  assert (∀ h1, files h1 = files h →
            find_template joinpath setup h1 config_template_name
            = find_template joinpath setup h config_template_name) as Hsame.
  { intros h1 Hf. unfold find_template, is_file, read_text. rewrite Hf. reflexivity. }
  destruct (is_file h config_name) eqn:Hfile.
  { unfold find_config. rewrite Hfile. simpl.
    apply is_file_lookup in Hfile as [text Htext].
    split; [|discriminate]. split; [discriminate|]. intros [? _]. congruence. }
  destruct (find_config_missing config_name config_template_name h Hfile)
    as (h1 & -> & ->).
  rewrite (Hsame (say _ (say _ h)) eq_refl).
  destruct (yn_answer setup); simpl.
  2:{ split; [|discriminate]. split; [discriminate|]. intros (_ & ? & _). discriminate. }
  destruct (find_template joinpath setup h config_template_name)
    as [e|[text|data]] eqn:Htpl.
  - simpl. split; [|discriminate]. split; [discriminate|].
    intros (_ & _ & ? & ?). discriminate.
  - destruct (files h !! config_name) eqn:Hcfg; simpl.
    + split; [|discriminate]. split; [discriminate|]. intros [? _]. discriminate.
    + split; [split; eauto|]. intros _. exists text. split; [reflexivity|].
      split; [apply insert_insert_eq|].
      unfold find_config, is_file. simpl. rewrite insert_insert_eq, lookup_insert_eq.
      reflexivity.
  - destruct (files h !! config_name) eqn:Hcfg; simpl.
    + split; [|discriminate]. split; [discriminate|]. intros [? _]. discriminate.
    + split; [|discriminate]. split; [discriminate|]. intros (_ & _ & ? & ?). discriminate.
Qed.

End FindConfigProperties.

Lemma find_config_creates_from_template_witness :
  (find_config posix_join (plain_setup true) CONFIG_NAME CONFIG_TEMPLATE_NAME
     checkout_host).1 = Exit 2 ∧
  ∃ text,
    find_template posix_join (plain_setup true) checkout_host CONFIG_TEMPLATE_NAME
      = inr (Str text) ∧
    files (find_config posix_join (plain_setup true) CONFIG_NAME CONFIG_TEMPLATE_NAME
             checkout_host).2
      = <[CONFIG_NAME:=File text]> (files checkout_host).
Proof.
  split; [reflexivity|].
  destruct (proj2 (find_config_creates_from_template posix_join (plain_setup true)
                     CONFIG_NAME CONFIG_TEMPLATE_NAME checkout_host) eq_refl)
    as (text & Htpl & Hfiles & _).
  exists text. split; assumption.
Defined.

Section TemplateSearch.

Variable joinpath : string → string → string.
Variable setup : Setup.

Lemma find_template_no_local (h : Host) (config_template_name : string) :
  no_local_template h config_template_name →
  find_template joinpath setup h config_template_name =
    let template_contents :=
      match pkg_resources setup with
      | None => Str ""
      | Some resources =>
          match resources !! config_template_name with
          | Some data => Bytes data
          | None => Str ""
          end
      end in
    if is_empty template_contents then
      match frozen setup with
      | Some bundle_dir =>
          match read_text h (joinpath bundle_dir config_template_name) with
          | inr text => inr (Str text)
          | inl e => inl e
          end
      | None => inr template_contents
      end
    else inr template_contents.
Proof.
  intros [Hno|Hempty]; unfold find_template; simpl.
  - rewrite Hno. reflexivity.
  - unfold is_file, read_text. rewrite Hempty. reflexivity.
Qed.

(** X15. The template is looked for in three places, and the first that
    yields something non-empty wins: the file in the working directory, as
    text; else the package resource, as [bytes]; else, in a frozen program,
    the file in the bundle directory, which is taken whatever it holds and
    whose reading may fail. In a program that is not frozen, with nothing
    found, the template is the empty text when the package has no such
    resource or cannot be imported, and the empty [bytes] when the resource
    is there and holds nothing; in this last case [find_config] creates the
    configuration file and fails with a [TypeError]. One of these cases
    always applies. *)
Theorem template_precedence (h : Host) (config_template_name : string) :
  (∀ text, files h !! config_template_name = Some (File text) → text ≠ "" →
           find_template joinpath setup h config_template_name = inr (Str text)) ∧
  (no_local_template h config_template_name →
   ∀ resources data,
     pkg_resources setup = Some resources →
     resources !! config_template_name = Some data → data ≠ "" →
     find_template joinpath setup h config_template_name = inr (Bytes data)) ∧
  (no_local_template h config_template_name →
   no_packaged_template setup config_template_name ∨
   empty_packaged_template setup config_template_name →
   ∀ bundle_dir,
     frozen setup = Some bundle_dir →
     find_template joinpath setup h config_template_name =
       match files h !! joinpath bundle_dir config_template_name with
       | Some (File text) => inr (Str text)
       | Some Directory => inl IsADirectoryError
       | None => inl FileNotFoundError
       end) ∧
  (no_local_template h config_template_name →
   no_packaged_template setup config_template_name →
   frozen setup = None →
   find_template joinpath setup h config_template_name = inr (Str "")) ∧
  (no_local_template h config_template_name →
   empty_packaged_template setup config_template_name →
   frozen setup = None →
   find_template joinpath setup h config_template_name = inr (Bytes "") ∧
   ∀ config_name,
     files h !! config_name = None →
     yn_answer setup = true →
     (find_config joinpath setup config_name config_template_name h).1
       = Failed TypeError ∧
     files (find_config joinpath setup config_name config_template_name h).2
       = <[config_name:=File ""]> (files h)) ∧
  ((∃ text, files h !! config_template_name = Some (File text) ∧ text ≠ "") ∨
   no_local_template h config_template_name) ∧
  ((∃ resources data,
      pkg_resources setup = Some resources ∧
      resources !! config_template_name = Some data ∧ data ≠ "") ∨
   no_packaged_template setup config_template_name ∨
   empty_packaged_template setup config_template_name).
Proof.
  split_and!.
  - intros text Hfile Hne. unfold find_template, is_file, read_text. simpl.
    rewrite Hfile. destruct text; [congruence|]. reflexivity.
  - intros Hlocal resources data Hpkg Hres Hne.
    rewrite find_template_no_local by exact Hlocal. simpl. rewrite Hpkg, Hres.
    destruct data; [congruence|]. reflexivity.
  - intros Hlocal Hpkg bundle_dir Hfrozen.
    rewrite find_template_no_local by exact Hlocal.
    unfold no_packaged_template in Hpkg. unfold read_text. simpl.
    destruct Hpkg as [Hpkg|(resources & Hpkg & Hres)].
    + destruct (pkg_resources setup) as [resources|]; rewrite ?Hpkg; simpl;
        rewrite Hfrozen;
        destruct (files h !! joinpath bundle_dir config_template_name) as [[]|];
        reflexivity.
    + rewrite Hpkg, Hres. simpl. rewrite Hfrozen.
      destruct (files h !! joinpath bundle_dir config_template_name) as [[]|];
        reflexivity.
  - intros Hlocal Hpkg Hfrozen. rewrite find_template_no_local by exact Hlocal.
    unfold no_packaged_template in Hpkg. simpl.
    destruct (pkg_resources setup) as [resources|]; rewrite ?Hpkg; simpl;
      rewrite Hfrozen; reflexivity.
  - intros Hlocal (resources & Hpkg & Hres) Hfrozen.
    assert (∀ h1, files h1 = files h →
              find_template joinpath setup h1 config_template_name = inr (Bytes ""))
      as Htpl.
    { intros h1 Hfiles. rewrite find_template_no_local.
      - simpl. rewrite Hpkg, Hres. simpl. rewrite Hfrozen. reflexivity.
      - unfold no_local_template, is_file in *. rewrite Hfiles. exact Hlocal. }
    split; [apply Htpl; reflexivity|].
    intros config_name Hcfg Hyn.
    assert (is_file h config_name = false) as Hfile
      by (unfold is_file; rewrite Hcfg; reflexivity).
    destruct (find_config_missing joinpath setup config_name config_template_name h Hfile)
      as (h1 & -> & ->).
    rewrite Hyn, Hcfg. simpl. rewrite (Htpl (say _ (say _ h)) eq_refl).
    split; reflexivity.
  - unfold no_local_template, is_file.
    destruct (files h !! config_template_name) as [[text|]|]; [|auto..].
    destruct text as [|c text]; [auto|]. left. eexists. split; [reflexivity|discriminate].
  - unfold no_packaged_template, empty_packaged_template.
    destruct (pkg_resources setup) as [resources|]; [|auto].
    destruct (resources !! config_template_name) as [data|] eqn:Hres; [|auto].
    destruct data as [|c data]; [right; right; eauto|].
    left. eexists _, _. split; [reflexivity|]. split; [exact Hres|discriminate].
Qed.

(** X16. When the only template is the one in the package resources, the
    creation fails: [resource_string] yields [bytes], which the text file
    refuses with a [TypeError] after it has been created. There is no exit
    with code 2, the configuration file is left behind empty, and a second
    call returns its path. *)
Theorem packaged_template_is_not_written (config_name config_template_name : string)
    (h : Host) (resources : gmap string string) (data : string) :
  files h !! config_name = None →
  yn_answer setup = true →
  no_local_template h config_template_name →
  pkg_resources setup = Some resources →
  resources !! config_template_name = Some data →
  data ≠ "" →
  let r := find_config joinpath setup config_name config_template_name h in
  r.1 = Failed TypeError ∧
  files r.2 = <[config_name:=File ""]> (files h) ∧
  find_config joinpath setup config_name config_template_name r.2
    = (Found config_name, r.2).
Proof.
  intros Hcfg Hyn Hlocal Hpkg Hres Hne. simpl.
  assert (is_file h config_name = false) as Hfile
    by (unfold is_file; rewrite Hcfg; reflexivity).
  destruct (find_config_missing joinpath setup config_name config_template_name h Hfile)
    as (h1 & -> & ->).
  rewrite Hyn, Hcfg. simpl.
  rewrite (find_template_no_local (say _ (say _ h)) config_template_name Hlocal).
  simpl. rewrite Hpkg, Hres. destruct data as [|c data]; [congruence|]. simpl.
  split; [reflexivity|]. split; [reflexivity|].
  unfold find_config, is_file. simpl. rewrite lookup_insert_eq. reflexivity.
Qed.

End TemplateSearch.

Lemma template_precedence_witness :
  find_template posix_join empty_resource_setup empty_host CONFIG_TEMPLATE_NAME
    = inr (Bytes "") ∧
  (find_config posix_join empty_resource_setup CONFIG_NAME CONFIG_TEMPLATE_NAME
     empty_host).1 = Failed TypeError.
Proof.
  destruct (proj1 (proj2 (proj2 (proj2 (proj2
              (template_precedence posix_join empty_resource_setup empty_host
                 CONFIG_TEMPLATE_NAME)))))
              (or_introl eq_refl)
              (ex_intro _ {[CONFIG_TEMPLATE_NAME := ""]} (conj eq_refl eq_refl))
              eq_refl) as [Htpl Hcfg].
  split; [exact Htpl|].
  apply (Hcfg CONFIG_NAME eq_refl eq_refl).
Defined.

Lemma packaged_template_is_not_written_witness :
  (find_config posix_join installed_setup CONFIG_NAME CONFIG_TEMPLATE_NAME empty_host).1
    = Failed TypeError ∧
  files (find_config posix_join installed_setup CONFIG_NAME CONFIG_TEMPLATE_NAME
           empty_host).2 = {[CONFIG_NAME := File ""]}.
Proof.
  destruct (packaged_template_is_not_written posix_join installed_setup
              CONFIG_NAME CONFIG_TEMPLATE_NAME empty_host
              {[CONFIG_TEMPLATE_NAME := "[twitch]"]} "[twitch]"
              eq_refl eq_refl (or_introl eq_refl) eq_refl eq_refl ltac:(discriminate))
    as (Hres & Hfiles & _).
  split; [exact Hres|exact Hfiles].
Defined.

(** X17. With no template in the working directory, none in the package
    and a program that is not frozen, a user who agrees gets an empty
    configuration file, the message that the template file was created,
    and exit code 2. *)
Theorem missing_template_creates_empty_config (joinpath : string → string → string)
    (setup : Setup) (config_name config_template_name : string) (h : Host) :
  files h !! config_name = None →
  yn_answer setup = true →
  no_local_template h config_template_name →
  no_packaged_template setup config_template_name →
  frozen setup = None →
  let r := find_config joinpath setup config_name config_template_name h in
  r.1 = Exit 2 ∧
  files r.2 = <[config_name:=File ""]> (files h) ∧
  last (console r.2) =
    Some (Logged WARNING
            ("Template config file created. " +:+
             "Fill in essential details like the Twitch login token, and run the program again.")).
Proof.
  intros Hcfg Hyn Hlocal Hpkg Hfrozen. simpl.
  assert (is_file h config_name = false) as Hfile
    by (unfold is_file; rewrite Hcfg; reflexivity).
  destruct (find_config_missing joinpath setup config_name config_template_name h Hfile)
    as (h1 & -> & ->).
  rewrite Hyn, Hcfg. simpl.
  rewrite (find_template_no_local joinpath setup (say _ (say _ h))
             config_template_name Hlocal).
  unfold no_packaged_template in Hpkg. simpl.
  destruct (pkg_resources setup) as [resources|]; rewrite ?Hpkg; simpl;
    rewrite Hfrozen; simpl;
    (split; [reflexivity|]); (split; [apply insert_insert_eq|]);
    apply last_snoc.
Qed.

Lemma missing_template_creates_empty_config_witness :
  (find_config posix_join (plain_setup true) CONFIG_NAME CONFIG_TEMPLATE_NAME
     empty_host).1 = Exit 2 ∧
  files (find_config posix_join (plain_setup true) CONFIG_NAME CONFIG_TEMPLATE_NAME
           empty_host).2 = {[CONFIG_NAME := File ""]}.
Proof.
  destruct (missing_template_creates_empty_config posix_join (plain_setup true)
              CONFIG_NAME CONFIG_TEMPLATE_NAME empty_host
              eq_refl eq_refl (or_introl eq_refl) I eq_refl)
    as (Hres & Hfiles & _).
  split; [exact Hres|exact Hfiles].
Defined.
